(** * doremid: musical note-based identifiers

    A shallow embedding of [doremid.go] (package [doremid]) and the
    properties of its position <-> identifier codec, its sequential batch
    generation and its unique random batch generation.

    Modelling conventions.
    - Go's [int] and [int64] are 64-bit two's complement integers (a 64-bit
      platform): they are values of [Z] and every arithmetic result goes
      through [wrap].
    - A Go [string] is its sequence of bytes, a [list ascii]; a slice is a
      list, written by index with [store].
    - A run-time panic (integer division by zero, index out of range,
      [make] with a negative length or capacity) is [None]; a function
      that cannot panic returns its value directly. Memory is not bounded:
      [make] never fails for a length that is not negative.
    - The generator's [rand] field is the state of a random stream. The
      functions that draw from it take the stream's [Intn] and its state
      and return an [outcome]: the value returned with the new state, a
      panic, or a loop still running when the bound on the draws is
      reached.
    - [strings.Split] and the UTF-8 decoding under it are modelled from
      the Go standard library. *)

From Stdlib Require Import ZArith List Ascii String Lia.
From stdpp Require Import base option list gmap strings.

Local Open Scope Z_scope.

(** ** 64-bit integers *)

Definition MinInt64 : Z := - 2 ^ 63.
Definition MaxInt64 : Z := 2 ^ 63 - 1.

(** Two's complement wrap-around of a mathematical result to [int64]. *)
Definition wrap (z : Z) : Z := (z + 2 ^ 63) mod 2 ^ 64 - 2 ^ 63.

Definition add64 (a b : Z) : Z := wrap (a + b).
Definition sub64 (a b : Z) : Z := wrap (a - b).
Definition mul64 (a b : Z) : Z := wrap (a * b).

(** Go's [/] truncates toward zero and panics on a zero divisor. *)
Definition quo64 (a b : Z) : option Z :=
  if decide (b = 0) then None else Some (wrap (Z.quot a b)).

(** Go's [%] has the sign of the dividend and panics on a zero divisor. *)
Definition rem64 (a b : Z) : option Z :=
  if decide (b = 0) then None else Some (Z.rem a b).

(** [len] of a string or slice, as an [int]. *)
Definition len {A} (l : list A) : Z := Z.of_nat (length l).

(** ** Strings *)

(** A string literal as its bytes. *)
Definition str (s : string) : list ascii := list_ascii_of_string s.

Definition byteval (c : ascii) : Z := Z.of_N (N_of_ascii c).

Definition continuation (lo hi : Z) (c : ascii) : bool :=
  bool_decide (lo <= byteval c <= hi).

(** Modelled from the Go standard library ([utf8.DecodeRuneInString]): the
    width in bytes of the first UTF-8 sequence of a non-empty string; an
    invalid or truncated sequence has width 1. *)
Definition runeSize (s : list ascii) : nat :=
  match s with
  | [] => 0%nat
  | s0 :: t =>
    let b := byteval s0 in
    let two lo hi :=
      match t with
      | s1 :: _ => if continuation lo hi s1 then 2%nat else 1%nat
      | _ => 1%nat
      end in
    let three lo hi :=
      match t with
      | s1 :: s2 :: _ =>
        if continuation lo hi s1 && continuation 128 191 s2 then 3%nat else 1%nat
      | _ => 1%nat
      end in
    let four lo hi :=
      match t with
      | s1 :: s2 :: s3 :: _ =>
        if continuation lo hi s1 && continuation 128 191 s2
           && continuation 128 191 s3 then 4%nat else 1%nat
      | _ => 1%nat
      end in
    if bool_decide (b < 194) then 1%nat
    else if bool_decide (b < 224) then two 128 191
    else if bool_decide (b = 224) then three 160 191
    else if bool_decide (b = 237) then three 128 159
    else if bool_decide (b < 240) then three 128 191
    else if bool_decide (b = 240) then four 144 191
    else if bool_decide (b < 244) then four 128 191
    else if bool_decide (b = 244) then four 128 143
    else 1%nat
  end.

(** Modelled from the Go standard library ([strings.explode]): the UTF-8
    sequences of [s], one string each. [fuel] bounds the number of
    sequences; [length s] is enough. *)
Fixpoint explode (fuel : nat) (s : list ascii) : list (list ascii) :=
  match fuel, s with
  | _, [] => []
  | O, _ => [s]
  | S fuel', _ =>
    let size := runeSize s in
    take size s :: explode fuel' (drop size s)
  end.

(** [strings.HasPrefix]. *)
Fixpoint HasPrefix (s p : list ascii) : bool :=
  match p, s with
  | [], _ => true
  | _ :: _, [] => false
  | b :: p', a :: s' => bool_decide (a = b) && HasPrefix s' p'
  end.

(** [strings.Index]: the index of the first instance of [sep] in [s];
    [None] stands for Go's [-1]. *)
Fixpoint Index (s sep : list ascii) : option nat :=
  if HasPrefix s sep then Some O
  else match s with
       | [] => None
       | _ :: s' => S <$> Index s' sep
       end.

(** The loop of [strings.genSplit] for a non-empty separator: cut at the
    first instance of [sep], continue after it. Every round consumes at
    least one byte, so [length s] rounds are enough. *)
Fixpoint genSplit (fuel : nat) (s sep : list ascii) : list (list ascii) :=
  match fuel with
  | O => [s]
  | S fuel' =>
    match Index s sep with
    | None => [s]
    | Some m => take m s :: genSplit fuel' (drop (m + length sep) s) sep
    end
  end.

(** Modelled from the Go standard library ([strings.Split]): the substrings
    of [s] between the instances of [sep]; for an empty [sep], the UTF-8
    sequences of [s] (none when [s] is empty too). *)
Definition Split (s sep : list ascii) : list (list ascii) :=
  match sep with
  | [] => explode (length s) s
  | _ :: _ => genSplit (length s) s sep
  end.

(** ** Configuration and generator *)

Module Config.
Record t : Type := {
  JustIntonationDigits : Z;
  EqualTemperamentDigits : Z;
  Separator : list ascii
}.
End Config.

Record Generator : Type := {
  JustIntonationDigits : Z;
  EqualTemperamentDigits : Z;
  Separator : list ascii;
  justIntonationBytes : list (list ascii);
  equalTemperamentBytes : list ascii;
  justIntonationLen : Z;
  equalTemperamentLen : Z;
  justIntonationMap : gmap (list ascii) Z;
  equalTemperamentMap : gmap ascii Z
}.

Definition DefaultConfig : Config.t :=
  {| Config.JustIntonationDigits := 4;
     Config.EqualTemperamentDigits := 5;
     Config.Separator := str "-" |}.

(** [for i, k := range keys { m[k] = i }], from index [i] on. *)
Fixpoint index_from {K} `{Countable K} (i : Z) (keys : list K)
    (m : gmap K Z) : gmap K Z :=
  match keys with
  | [] => m
  | k :: keys' => index_from (i + 1) keys' (<[k := i]> m)
  end.

(** The two alphabets [New] installs. *)
Definition noteNames : list (list ascii) :=
  [str "do"; str "re"; str "mi"; str "fa"; str "so"; str "la"; str "ti"].
Definition charNames : list ascii := str "0123456789ab".

Definition New (config : Config.t) : Generator :=
  let notes := noteNames in
  let chars := charNames in
  {| JustIntonationDigits := Config.JustIntonationDigits config;
     EqualTemperamentDigits := Config.EqualTemperamentDigits config;
     Separator := Config.Separator config;
     justIntonationBytes := notes;
     equalTemperamentBytes := chars;
     justIntonationLen := len notes;
     equalTemperamentLen := len chars;
     justIntonationMap := index_from 0 notes ∅;
     equalTemperamentMap := index_from 0 chars ∅ |}.

Definition NewWithDefaults : Generator := New DefaultConfig.

(** ** Integer power *)

(** The loop of [intPow]: [for exp > 0 { ... exp /= 2 }]. An [int] has 64
    bits, so the loop body runs at most 63 times. *)
Fixpoint intPow_loop (fuel : nat) (result base exp : Z) : Z :=
  match fuel with
  | O => result
  | S fuel' =>
    if bool_decide (exp > 0) then
      let result' :=
        if bool_decide (Z.rem exp 2 = 1) then mul64 result base else result in
      intPow_loop fuel' result' (mul64 base base) (Z.quot exp 2)
    else result
  end.

Definition intPow (base exp : Z) : Z := intPow_loop 64 1 base exp.

Definition MaxCombinations (g : Generator) : Z :=
  let justMax := intPow (justIntonationLen g) (JustIntonationDigits g) in
  let equalMax := intPow (equalTemperamentLen g) (EqualTemperamentDigits g) in
  mul64 justMax equalMax.

(** ** Position -> identifier *)

(** [make([]T, n)] filled with [zero]; a negative length panics. *)
Definition make {A} (zero : A) (n : Z) : option (list A) :=
  if bool_decide (n < 0) then None else Some (replicate (Z.to_nat n) zero).

(** [make([]T, 0, n)]: an empty slice; a negative capacity panics. *)
Definition make_cap {A} (n : Z) : option (list A) :=
  if bool_decide (n < 0) then None else Some [].

(** [for i := n - 1; i >= 0; i-- { digits[i] = temp % radix; temp /= radix }],
    with [i] the number of rounds left (the index written is [i - 1]). *)
Fixpoint fill_digits (i : nat) (radix temp : Z) (digits : list Z)
    : option (list Z) :=
  match i with
  | O => Some digits
  | S i' =>
    d ← rem64 temp radix;
    temp' ← quo64 temp radix;
    fill_digits i' radix temp' (<[i' := d]> digits)
  end.

(** [table[digit]]: an index outside the table panics. *)
Definition at_index {A} (table : list A) (digit : Z) : option A :=
  if bool_decide (digit < 0) then None else table !! Z.to_nat digit.

(** [for _, digit := range digits { result = append(result, table[digit]...) }] *)
Fixpoint append_notes (table : list (list ascii)) (digits : list Z)
    (result : list ascii) : option (list ascii) :=
  match digits with
  | [] => Some result
  | digit :: digits' =>
    note ← at_index table digit;
    append_notes table digits' (result ++ note)
  end.

(** [for _, digit := range digits { result = append(result, table[digit]) }] *)
Fixpoint append_chars (table : list ascii) (digits : list Z)
    (result : list ascii) : option (list ascii) :=
  match digits with
  | [] => Some result
  | digit :: digits' =>
    c ← at_index table digit;
    append_chars table digits' (result ++ [c])
  end.

Definition PositionToID (g : Generator) (position : Z)
    : option (list ascii) :=
  if bool_decide (position < 0) then Some []
  else
    let equalMax :=
      intPow (equalTemperamentLen g) (EqualTemperamentDigits g) in
    justValue ← quo64 position equalMax;
    equalValue ← rem64 position equalMax;
    let capacity :=
      add64 (add64 (mul64 (JustIntonationDigits g) 2) (len (Separator g)))
            (EqualTemperamentDigits g) in
    result ← make_cap capacity;
    justDigits ← make 0 (JustIntonationDigits g);
    justDigits ← fill_digits (Z.to_nat (JustIntonationDigits g))
                   (justIntonationLen g) justValue justDigits;
    result ← append_notes (justIntonationBytes g) justDigits result;
    let result := result ++ Separator g in
    equalDigits ← make 0 (EqualTemperamentDigits g);
    equalDigits ← fill_digits (Z.to_nat (EqualTemperamentDigits g))
                    (equalTemperamentLen g) equalValue equalDigits;
    append_chars (equalTemperamentBytes g) equalDigits result.

(** ** Identifier -> position *)

(** The first loop of [IDToPosition], two bytes at a time; [None] is the
    loop's [return -1]. *)
Fixpoint parse_just (g : Generator) (justPart : list ascii) (justValue : Z)
    : option Z :=
  match justPart with
  | [] => Some justValue
  | [_] => None
  | a :: b :: rest =>
    match justIntonationMap g !! [a; b] with
    | Some index =>
      parse_just g rest (add64 (mul64 justValue (justIntonationLen g)) index)
    | None => None
    end
  end.

(** The second loop of [IDToPosition]; [None] is the loop's [return -1]. *)
Fixpoint parse_equal (g : Generator) (equalPart : list ascii) (equalValue : Z)
    : option Z :=
  match equalPart with
  | [] => Some equalValue
  | char :: rest =>
    match equalTemperamentMap g !! char with
    | Some index =>
      parse_equal g rest (add64 (mul64 equalValue (equalTemperamentLen g)) index)
    | None => None
    end
  end.

Definition IDToPosition (g : Generator) (id : list ascii) : Z :=
  match Split id (Separator g) with
  | [justPart; equalPart] =>
    if bool_decide (len justPart ≠ mul64 (JustIntonationDigits g) 2
                    ∨ len equalPart ≠ EqualTemperamentDigits g)
    then -1
    else
      match parse_just g justPart 0 with
      | None => -1
      | Some justValue =>
        match parse_equal g equalPart 0 with
        | None => -1
        | Some equalValue =>
          add64 (mul64 justValue
                   (intPow (equalTemperamentLen g) (EqualTemperamentDigits g)))
                equalValue
        end
      end
  | _ => -1
  end.

(** ** Sequential batch generation *)

(** [slice[i] = v]: an index outside the slice panics. *)
Definition store {A} (slice : list A) (i : Z) (v : A) : option (list A) :=
  if bool_decide (0 <= i < len slice) then Some (<[Z.to_nat i := v]> slice)
  else None.

(** [for i := int64(0); i < count; i++ { ids[i] = g.PositionToID(startPosition + i) }],
    with [rounds] the number of rounds left. *)
Fixpoint fill_ids (g : Generator) (startPosition : Z) (rounds : nat) (i : Z)
    (ids : list (list ascii)) : option (list (list ascii)) :=
  match rounds with
  | O => Some ids
  | S rounds' =>
    id ← PositionToID g (add64 startPosition i);
    ids' ← store ids i id;
    fill_ids g startPosition rounds' (i + 1) ids'
  end.

Definition BatchGenerateIDs (g : Generator) (count startPosition : Z)
    : option (list (list ascii)) :=
  if bool_decide (count <= 0 ∨ startPosition < 0) then Some []
  else
    let maxCombinations := MaxCombinations g in
    if bool_decide (startPosition >= maxCombinations) then Some []
    else
      let count :=
        if bool_decide (add64 startPosition count > maxCombinations)
        then sub64 maxCombinations startPosition
        else count in
      if bool_decide (count <= 0) then Some []
      else
        ids ← make [] count;
        fill_ids g startPosition (Z.to_nat count) 0 ids.

(** ** Unique random batch generation *)

(** What a call that draws random numbers does: it returns a value, it
    panics, or its loop is still running when the fuel is used up. *)
Inductive outcome (A : Type) : Type :=
  | Returns (a : A)
  | Panics
  | Running.
Arguments Returns {A} a.
Arguments Panics {A}.
Arguments Running {A}.

Definition outcome_bind {A B} (f : A → outcome B) (x : outcome A) : outcome B :=
  match x with
  | Returns a => f a
  | Panics => Panics
  | Running => Running
  end.

#[global] Instance outcome_mbind : MBind outcome := @outcome_bind.

(** A panic of pure code inside a drawing function. *)
Definition lift {A} (x : option A) : outcome A :=
  match x with
  | Some a => Returns a
  | None => Panics
  end.

(** [for i, pos := range positions { ids[i] = g.PositionToID(int64(pos)) }] *)
Fixpoint assign_ids (g : Generator) (positions : list Z) (i : Z)
    (ids : list (list ascii)) : option (list (list ascii)) :=
  match positions with
  | [] => Some ids
  | pos :: positions' =>
    id ← PositionToID g pos;
    ids' ← store ids i id;
    assign_ids g positions' (i + 1) ids'
  end.

(** [for i := 0; i < max; i++ { positions[i] = i }], with [rounds] the
    number of rounds left. *)
Fixpoint fill_identity (rounds : nat) (i : Z) (positions : list Z)
    : option (list Z) :=
  match rounds with
  | O => Some positions
  | S rounds' =>
    positions' ← store positions i i;
    fill_identity rounds' (i + 1) positions'
  end.

(** [slice[:n]]: a bound outside the slice panics. *)
Definition slice_to {A} (slice : list A) (n : Z) : option (list A) :=
  if bool_decide (0 <= n <= len slice) then Some (take (Z.to_nat n) slice)
  else None.

Section Random.

(** The state of the generator's random stream ([*rand.Rand]) and its
    [Intn]: the number drawn and the state after the draw. *)
Variable Rand : Type.
Variable Intn : Rand → Z → Z * Rand.

(** [g.rand.Intn(n)]: panics unless [n > 0]. *)
Definition draw (r : Rand) (n : Z) : outcome (Z * Rand) :=
  if bool_decide (n <= 0) then Panics else Returns (Intn r n).

(** The Fisher-Yates loop of [randomSample]:
    [for i := max - 1; i > 0; i-- { j := Intn(i + 1); swap }]. *)
Fixpoint shuffle (i : nat) (positions : list Z) (r : Rand)
    : outcome (list Z * Rand) :=
  match i with
  | O => Returns (positions, r)
  | S i' =>
    '(j, r') ← draw r (Z.of_nat i + 1);
    pi ← lift (at_index positions (Z.of_nat i));
    pj ← lift (at_index positions j);
    positions' ← lift (store positions (Z.of_nat i) pj);
    positions'' ← lift (store positions' j pi);
    shuffle i' positions'' r'
  end.

(** The rejection loop of [randomSample]:
    [for len(positions) < count { pos := Intn(max); if !used[pos] { ... } }].
    It is not bounded in the source: [fuel] bounds the draws. *)
Fixpoint reject (fuel : nat) (max count : Z) (used : gmap Z bool)
    (positions : list Z) (r : Rand) : outcome (list Z * Rand) :=
  if bool_decide (len positions < count) then
    match fuel with
    | O => Running
    | S fuel' =>
      '(pos, r') ← draw r max;
      if negb (default false (used !! pos))
      then reject fuel' max count (<[pos := true]> used) (positions ++ [pos]) r'
      else reject fuel' max count used positions r'
    end
  else Returns (positions, r).

Definition randomSample (fuel : nat) (r : Rand) (max count : Z)
    : outcome (list Z * Rand) :=
  if bool_decide (count >= max) then
    positions ← lift (make 0 max);
    positions ← lift (fill_identity (Z.to_nat max) 0 positions);
    '(positions, r') ← shuffle (Z.to_nat (max - 1)) positions r;
    sample ← lift (slice_to positions count);
    Returns (sample, r')
  else
    positions ← lift (make_cap count);
    reject fuel max count ∅ positions r.

Definition BatchGenerateRandomIDs (fuel : nat) (g : Generator) (r : Rand)
    (count : Z) : outcome (list (list ascii) * Rand) :=
  if bool_decide (count <= 0) then Returns ([], r)
  else
    let maxCombinations := MaxCombinations g in
    if bool_decide (count > maxCombinations) then Returns ([], r)
    else
      '(positions, r') ← randomSample fuel r maxCombinations count;
      ids ← lift (make [] count);
      ids ← lift (assign_ids g positions 0 ids);
      Returns (ids, r').

(** The first [n] numbers [Intn(max)] draws from state [r]. *)
Fixpoint draws (n : nat) (max : Z) (r : Rand) : list Z :=
  match n with
  | O => []
  | S n' => (Intn r max).1 :: draws n' max (Intn r max).2
  end.

End Random.

Arguments draw {Rand} Intn r n.
Arguments shuffle {Rand} Intn i positions r.
Arguments reject {Rand} Intn fuel max count used positions r.
Arguments randomSample {Rand} Intn fuel r max count.
Arguments BatchGenerateRandomIDs {Rand} Intn fuel g r count.
Arguments draws {Rand} Intn n max r.

(** ** Single random identifier *)

Section RandomID.

Variable Rand : Type.
Variable Intn : Rand → Z → Z * Rand.

(** The first loop of [NewID], with [rounds] the number of rounds left:
    [for i := 0; i < JustIntonationDigits; i++ {
       result = append(result, justIntonationBytes[rand.Intn(justIntonationLen)]...) }]. *)
Fixpoint draw_notes (rounds : nat) (g : Generator) (result : list ascii)
    (r : Rand) : outcome (list ascii * Rand) :=
  match rounds with
  | O => Returns (result, r)
  | S rounds' =>
    '(j, r') ← draw Intn r (justIntonationLen g);
    note ← lift (at_index (justIntonationBytes g) j);
    draw_notes rounds' g (result ++ note) r'
  end.

(** The second loop of [NewID]:
    [for i := 0; i < EqualTemperamentDigits; i++ {
       result = append(result, equalTemperamentBytes[rand.Intn(equalTemperamentLen)]) }]. *)
Fixpoint draw_chars (rounds : nat) (g : Generator) (result : list ascii)
    (r : Rand) : outcome (list ascii * Rand) :=
  match rounds with
  | O => Returns (result, r)
  | S rounds' =>
    '(j, r') ← draw Intn r (equalTemperamentLen g);
    c ← lift (at_index (equalTemperamentBytes g) j);
    draw_chars rounds' g (result ++ [c]) r'
  end.

Definition NewID (g : Generator) (r : Rand) : outcome (list ascii * Rand) :=
  let capacity :=
    add64 (add64 (mul64 (JustIntonationDigits g) 2) (len (Separator g)))
          (EqualTemperamentDigits g) in
  result ← lift (make_cap capacity);
  '(result, r) ← draw_notes (Z.to_nat (JustIntonationDigits g)) g result r;
  let result := result ++ Separator g in
  draw_chars (Z.to_nat (EqualTemperamentDigits g)) g result r.

End RandomID.

Arguments draw_notes {Rand} Intn rounds g result r.
Arguments draw_chars {Rand} Intn rounds g result r.
Arguments NewID {Rand} Intn g r.

(** A stream that counts: the [k]-th draw of [Intn(n)] is [k mod n]. *)
Definition counting (r : nat) (n : Z) : Z * nat := (Z.of_nat r mod n, S r).

(** ** Configurations used in the examples *)

Definition config (just equal : Z) (separator : string) : Config.t :=
  {| Config.JustIntonationDigits := just;
     Config.EqualTemperamentDigits := equal;
     Config.Separator := str separator |}.

Definition g121 : Generator := New (config 1 2 "-").
Definition g11 : Generator := New (config 1 1 "-").

(** ** Notions used in the statements *)

(** The digit counts of a configuration are not negative and the size of
    its identifier space, [7 ^ just * 12 ^ equal], fits an [int64]. *)
Definition representable (cfg : Config.t) : Prop :=
  0 <= Config.JustIntonationDigits cfg
  ∧ 0 <= Config.EqualTemperamentDigits cfg
  ∧ 7 ^ Config.JustIntonationDigits cfg
    * 12 ^ Config.EqualTemperamentDigits cfg <= MaxInt64.

(** A value an [int64] variable can hold. *)
Definition int64 (z : Z) : Prop := MinInt64 <= z <= MaxInt64.

(** The longest identifier of the configuration has a length an [int] can
    hold. *)
Definition fits_int (cfg : Config.t) : Prop :=
  2 * Config.JustIntonationDigits cfg + len (Config.Separator cfg)
  + Config.EqualTemperamentDigits cfg <= MaxInt64.

(** The bytes of the two alphabets. *)
Definition alphabet_bytes : list ascii := concat noteNames ++ charNames.

(** The separator has a byte that no symbol of the alphabets has. *)
Definition distinctive (separator : list ascii) : Prop :=
  ∃ c, c ∈ separator ∧ c ∉ alphabet_bytes.

(** The [n] digits of [v] in base [radix], most significant first. *)
Fixpoint to_digits (n : nat) (radix v : Z) : list Z :=
  match n with
  | O => []
  | S n' => to_digits n' radix (v / radix) ++ [v mod radix]
  end.

(** Horner's rule from the accumulator [acc]. *)
Fixpoint from_digits (radix : Z) (digits : list Z) (acc : Z) : Z :=
  match digits with
  | [] => acc
  | d :: digits' => from_digits radix digits' (acc * radix + d)
  end.

(** The symbols of a digit. *)
Definition note (d : Z) : list ascii := default [] (noteNames !! Z.to_nat d).
Definition char (d : Z) : ascii := default "0"%char (charNames !! Z.to_nat d).

(** The identifier of a position, as the digits of its two parts. *)
Definition encode (cfg : Config.t) (position : Z) : list ascii :=
  let just := Config.JustIntonationDigits cfg in
  let equal := Config.EqualTemperamentDigits cfg in
  concat (note <$> to_digits (Z.to_nat just) 7 (position / 12 ^ equal))
  ++ Config.Separator cfg
  ++ (char <$> to_digits (Z.to_nat equal) 12 (position mod 12 ^ equal)).

(** The capacity [PositionToID] asks for. *)
Definition capacity (cfg : Config.t) : Z :=
  add64 (add64 (mul64 (Config.JustIntonationDigits cfg) 2)
               (len (Config.Separator cfg)))
        (Config.EqualTemperamentDigits cfg).

(** What makes [IDToPosition] reject an identifier: the number of
    segments, the length of a segment, or a symbol outside its alphabet. *)
Definition malformed (cfg : Config.t) (id : list ascii) : Prop :=
  length (Split id (Config.Separator cfg)) ≠ 2%nat
  ∨ ∃ justPart equalPart,
      Split id (Config.Separator cfg) = [justPart; equalPart]
      ∧ (len justPart ≠ Config.JustIntonationDigits cfg * 2
         ∨ len equalPart ≠ Config.EqualTemperamentDigits cfg
         ∨ (∃ i : nat, (2 * i < length justPart)%nat
                       ∧ take 2 (drop (2 * i) justPart) ∉ noteNames)
         ∨ (∃ c, c ∈ equalPart ∧ c ∉ charNames)).

(** The number of identifiers [BatchGenerateIDs] goes on to generate once
    its first two guards are passed. *)
Definition clamped (g : Generator) (count startPosition : Z) : Z :=
  if bool_decide (add64 startPosition count > MaxCombinations g)
  then sub64 (MaxCombinations g) startPosition
  else count.

(** What the rejection loop keeps true of its two variables. *)
Definition reject_invariant (max count : Z) (used : gmap Z bool)
    (positions : list Z) : Prop :=
  (∀ p, default false (used !! p) = true ↔ p ∈ positions)
  ∧ NoDup positions
  ∧ (∀ p, p ∈ positions → 0 <= p < max)
  ∧ len positions <= count.

(** The stream, from state [r], yields [count] distinct numbers below
    [max] within finitely many draws. *)
Definition yields_distinct {Rand : Type} (Intn : Rand → Z → Z * Rand)
    (r : Rand) (max count : Z) : Prop :=
  ∃ n, count <= Z.of_nat (size (list_to_set (draws Intn n max r) : gset Z)).

(** A batch of [count] identifiers without repetition, whose positions are
    in range and without repetition, and are all the positions when
    [count] is [MaxCombinations]. *)
Definition unique_batch (g : Generator) (count : Z)
    (ids : list (list ascii)) : Prop :=
  len ids = count
  ∧ NoDup ids
  ∧ NoDup (IDToPosition g <$> ids)
  ∧ (∀ id, id ∈ ids → 0 <= IDToPosition g id < MaxCombinations g)
  ∧ (count = MaxCombinations g →
     ∀ p, 0 <= p < MaxCombinations g → p ∈ IDToPosition g <$> ids).

(** * Properties *)

(** One step through the binds of a drawing function. *)
Ltac outcome_step :=
  cbn [mbind outcome_mbind outcome_bind lift option_bind].

(** ** 64-bit arithmetic *)

Lemma wrap_range z : MinInt64 <= wrap z <= MaxInt64.
Proof.
  unfold wrap, MinInt64, MaxInt64.
  pose proof (Z.mod_pos_bound (z + 2 ^ 63) (2 ^ 64)). lia.
Qed.

Lemma wrap_small z : MinInt64 <= z <= MaxInt64 → wrap z = z.
Proof.
  unfold wrap, MinInt64, MaxInt64. intros Hz.
  rewrite Z.mod_small; lia.
Qed.

Lemma wrap_mod z : wrap z mod 2 ^ 64 = z mod 2 ^ 64.
Proof.
  unfold wrap.
  rewrite Zminus_mod, Zmod_mod, <- Zminus_mod.
  f_equal. lia.
Qed.

Lemma wrap_congr a b : a mod 2 ^ 64 = b mod 2 ^ 64 → wrap a = wrap b.
Proof.
  intros Hab. unfold wrap.
  rewrite (Zplus_mod a), (Zplus_mod b), Hab. reflexivity.
Qed.

Lemma wrap_wrap z : wrap (wrap z) = wrap z.
Proof. apply wrap_congr, wrap_mod. Qed.

Lemma wrap_mul a b : wrap (wrap a * wrap b) = wrap (a * b).
Proof.
  apply wrap_congr.
  rewrite Zmult_mod, !wrap_mod, <- Zmult_mod. reflexivity.
Qed.

Lemma wrap_mul_congr a a' b b' :
  wrap a = wrap a' → wrap b = wrap b' → wrap (a * b) = wrap (a' * b').
Proof.
  intros Ha Hb. rewrite <- wrap_mul, Ha, Hb, wrap_mul. reflexivity.
Qed.

Lemma wrap_pow a e : 0 <= e → wrap (wrap a ^ e) = wrap (a ^ e).
Proof.
  intros He. apply wrap_congr.
  rewrite <- (Z.mod_pow_l (wrap a)), wrap_mod, Z.mod_pow_l.
  reflexivity.
Qed.

(** ** [intPow] is exponentiation modulo [2 ^ 64] *)

Lemma intPow_loop_spec fuel : ∀ result base exp,
  0 <= exp < 2 ^ Z.of_nat fuel →
  wrap (intPow_loop fuel result base exp) = wrap (result * base ^ exp).
Proof.
  induction fuel as [|fuel IH]; intros result base exp Hexp.
  - assert (exp = 0) as -> by (simpl in Hexp; lia).
    simpl. f_equal. lia.
  - cbn [intPow_loop]. case_bool_decide as Hpos.
    + assert (Hhalf : 0 <= exp `quot` 2 < 2 ^ Z.of_nat fuel).
      { rewrite Z.quot_div_nonneg by lia.
        rewrite Nat2Z.inj_succ, Z.pow_succ_r in Hexp by lia.
        split; [apply Z.div_pos; lia|].
        apply Z.div_lt_upper_bound; lia. }
      rewrite IH by exact Hhalf.
      rewrite Z.quot_div_nonneg, Z.rem_mod_nonneg in * by lia.
      assert (Hsplit : exp = 2 * (exp / 2) + exp mod 2)
        by (apply Z.div_mod; lia).
      assert (Hsq : wrap (mul64 base base ^ (exp / 2))
                    = wrap ((base * base) ^ (exp / 2))).
      { unfold mul64. apply wrap_pow. lia. }
      assert (Hpow : (base * base) ^ (exp / 2) * base ^ (exp mod 2)
                     = base ^ exp).
      { pose proof (Z.div_pos exp 2) as Hdiv.
        pose proof (Z.mod_pos_bound exp 2) as Hmod.
        rewrite <- Z.pow_2_r, <- Z.pow_mul_r, <- Z.pow_add_r by lia.
        f_equal. lia. }
      pose proof (Z.mod_pos_bound exp 2 ltac:(lia)) as Hbit.
      case_bool_decide as Hodd.
      * transitivity (wrap (result * base * (base * base) ^ (exp / 2))).
        { apply wrap_mul_congr; [apply wrap_wrap|exact Hsq]. }
        f_equal. rewrite <- Hpow, Hodd, Z.pow_1_r. ring.
      * assert (Heven : exp mod 2 = 0) by lia.
        transitivity (wrap (result * (base * base) ^ (exp / 2))).
        { apply wrap_mul_congr; [reflexivity|exact Hsq]. }
        f_equal. rewrite <- Hpow, Heven, Z.pow_0_r. ring.
    + assert (exp = 0) as -> by lia. f_equal. lia.
Qed.

Lemma intPow_loop_range fuel : ∀ result base exp,
  MinInt64 <= result <= MaxInt64 →
  MinInt64 <= intPow_loop fuel result base exp <= MaxInt64.
Proof.
  induction fuel as [|fuel IH]; intros result base exp Hr; [exact Hr|].
  cbn [intPow_loop]. case_bool_decide; [|exact Hr].
  apply IH. case_bool_decide; [apply wrap_range|exact Hr].
Qed.

(** For an exponent an [int] can hold, [intPow] is the power, wrapped. *)
Lemma intPow_wrap base exp :
  0 <= exp <= MaxInt64 → intPow base exp = wrap (base ^ exp).
Proof.
  intros Hexp. unfold intPow.
  rewrite <- (wrap_small (intPow_loop _ _ _ _)).
  - rewrite intPow_loop_spec; [f_equal; lia|].
    unfold MaxInt64 in Hexp. change (Z.of_nat 64) with 64. lia.
  - apply intPow_loop_range. unfold MinInt64, MaxInt64. lia.
Qed.

(** A non-positive exponent never enters the loop. *)
Lemma intPow_nonpos base exp : exp <= 0 → intPow base exp = 1.
Proof.
  intros Hexp. unfold intPow. generalize 64%nat as fuel.
  intros [|fuel]; [reflexivity|].
  cbn [intPow_loop]. case_bool_decide; [lia|reflexivity].
Qed.


(** ** Representable configurations *)

Lemma pow_le_MaxInt64 b e :
  1 < b → 0 <= e → b ^ e <= MaxInt64 → 0 <= e <= MaxInt64 ∧ 1 <= b ^ e.
Proof.
  intros Hb He Hpow.
  pose proof (Z.pow_gt_lin_r b e Hb He).
  pose proof (Z.pow_pos_nonneg b e ltac:(lia) He). lia.
Qed.

Lemma representable_pows cfg :
  representable cfg →
  let just := Config.JustIntonationDigits cfg in
  let equal := Config.EqualTemperamentDigits cfg in
  1 <= 7 ^ just <= MaxInt64 ∧ 1 <= 12 ^ equal <= MaxInt64
  ∧ 0 <= just <= MaxInt64 ∧ 0 <= equal <= MaxInt64.
Proof.
  intros (Hj & He & Hmax). cbv zeta.
  pose proof (Z.pow_pos_nonneg 7 _ ltac:(lia) Hj) as H7.
  pose proof (Z.pow_pos_nonneg 12 _ ltac:(lia) He) as H12.
  assert (7 ^ Config.JustIntonationDigits cfg <= MaxInt64) as Hj' by nia.
  assert (12 ^ Config.EqualTemperamentDigits cfg <= MaxInt64) as He' by nia.
  pose proof (pow_le_MaxInt64 7 _ ltac:(lia) Hj Hj').
  pose proof (pow_le_MaxInt64 12 _ ltac:(lia) He He'). lia.
Qed.

Lemma intPow_exact b e :
  1 < b → 0 <= e → b ^ e <= MaxInt64 → intPow b e = b ^ e.
Proof.
  intros Hb He Hpow.
  destruct (pow_le_MaxInt64 b e Hb He Hpow) as [Hrange Hone].
  rewrite intPow_wrap by exact Hrange.
  apply wrap_small. unfold MinInt64. lia.
Qed.

Lemma New_justIntonationLen cfg : justIntonationLen (New cfg) = 7.
Proof. reflexivity. Qed.

Lemma New_equalTemperamentLen cfg : equalTemperamentLen (New cfg) = 12.
Proof. reflexivity. Qed.

Lemma equalMax_exact cfg :
  representable cfg →
  intPow (equalTemperamentLen (New cfg)) (EqualTemperamentDigits (New cfg))
  = 12 ^ Config.EqualTemperamentDigits cfg.
Proof.
  intros Hcfg. destruct (representable_pows cfg Hcfg) as (_ & H12 & _ & He).
  rewrite New_equalTemperamentLen. apply intPow_exact; cbn; lia.
Qed.

Lemma justMax_exact cfg :
  representable cfg →
  intPow (justIntonationLen (New cfg)) (JustIntonationDigits (New cfg))
  = 7 ^ Config.JustIntonationDigits cfg.
Proof.
  intros Hcfg. destruct (representable_pows cfg Hcfg) as (H7 & _ & Hj & _).
  rewrite New_justIntonationLen. apply intPow_exact; cbn; lia.
Qed.

Lemma MaxCombinations_representable cfg :
  representable cfg →
  MaxCombinations (New cfg)
  = 7 ^ Config.JustIntonationDigits cfg
    * 12 ^ Config.EqualTemperamentDigits cfg.
Proof.
  intros Hcfg. unfold MaxCombinations.
  rewrite justMax_exact, equalMax_exact by exact Hcfg.
  destruct (representable_pows cfg Hcfg) as (H7 & H12 & _).
  destruct Hcfg as (_ & _ & Hmax).
  apply wrap_small. unfold MinInt64. nia.
Qed.

(** C2 (as amended). For every configuration whose digit counts are not
    negative and whose [7 ^ just * 12 ^ equal] fits an [int64],
    [MaxCombinations] returns exactly [7 ^ just * 12 ^ equal]. *)
Theorem MaxCombinations_exact (cfg : Config.t) :
  representable cfg →
  MaxCombinations (New cfg)
  = 7 ^ Config.JustIntonationDigits cfg
    * 12 ^ Config.EqualTemperamentDigits cfg.
Proof. exact (MaxCombinations_representable cfg). Qed.

(** The default configuration (4 and 5 digits) has
    [2401 * 248832 = 597,445,632] identifiers. *)
Lemma MaxCombinations_exact_default :
  MaxCombinations (New DefaultConfig) = 597445632.
Proof.
  rewrite (MaxCombinations_exact DefaultConfig).
  - vm_compute. reflexivity.
  - unfold representable, MaxInt64. simpl. lia.
Defined.

(** C2 (as stated) fails twice. The default configuration does not have
    597,394,032 identifiers, and the formula does not hold for any digit
    configuration: with 23 just-intonation digits [7 ^ 23] is past
    [MaxInt64] and the result wraps around. *)
Lemma MaxCombinations_not_as_stated :
  MaxCombinations (New DefaultConfig) ≠ 597394032
  ∧ MaxCombinations (New (config 23 0 "-")) ≠ 7 ^ 23 * 12 ^ 0.
Proof. split; vm_compute; discriminate. Qed.

(** ** Digits *)

Lemma to_digits_length n radix v : length (to_digits n radix v) = n.
Proof.
  revert v. induction n as [|n IH]; intros v; [reflexivity|].
  cbn [to_digits]. rewrite length_app, IH. simpl. lia.
Qed.

Lemma to_digits_range n radix v :
  0 < radix → Forall (λ d, 0 <= d < radix) (to_digits n radix v).
Proof.
  intros Hr. revert v. induction n as [|n IH]; intros v; [constructor|].
  cbn [to_digits]. apply Forall_app. split; [apply IH|].
  constructor; [|constructor]. apply Z.mod_pos_bound. exact Hr.
Qed.

Lemma from_digits_app radix l1 l2 acc :
  from_digits radix (l1 ++ l2) acc
  = from_digits radix l2 (from_digits radix l1 acc).
Proof.
  revert acc. induction l1 as [|d l1 IH]; intros acc; [reflexivity|].
  simpl. apply IH.
Qed.

(** Horner's rule on the digits of [v] gives back [v] modulo [radix ^ n]. *)
Lemma from_to_digits n radix : ∀ v acc,
  0 < radix →
  from_digits radix (to_digits n radix v) acc
  = acc * radix ^ Z.of_nat n + v mod radix ^ Z.of_nat n.
Proof.
  induction n as [|n IH]; intros v acc Hr.
  - simpl. rewrite Z.mod_1_r. lia.
  - cbn [to_digits]. rewrite from_digits_app, IH by exact Hr. simpl.
    rewrite Nat2Z.inj_succ, Z.pow_succ_r by lia.
    rewrite (Z.rem_mul_r v radix (radix ^ Z.of_nat n)) by lia.
    ring.
Qed.

(** The digits depend on the value modulo [radix ^ n] only. *)
Lemma to_digits_mod n radix : ∀ v,
  0 < radix →
  to_digits n radix (v mod radix ^ Z.of_nat n) = to_digits n radix v.
Proof.
  induction n as [|n IH]; intros v Hr; [reflexivity|].
  cbn [to_digits].
  rewrite Nat2Z.inj_succ, Z.pow_succ_r by lia.
  assert (Hpow : 0 < radix ^ Z.of_nat n) by (apply Z.pow_pos_nonneg; lia).
  rewrite (Z.rem_mul_r v radix (radix ^ Z.of_nat n)) by lia.
  f_equal.
  - rewrite <- (IH (v / radix)) by exact Hr. f_equal.
    rewrite (Z.mul_comm radix), Z.div_add by lia.
    rewrite (Z.div_small (v mod radix)) by (apply Z.mod_pos_bound; lia).
    reflexivity.
  - f_equal. rewrite (Z.mul_comm radix), Z_mod_plus_full.
    apply Z.mod_mod. lia.
Qed.

Lemma from_digits_mono radix digits : ∀ acc,
  0 < radix → 0 <= acc → Forall (λ d, 0 <= d < radix) digits →
  acc <= from_digits radix digits acc.
Proof.
  induction digits as [|d digits IH]; intros acc Hr Hacc Hd; [simpl; lia|].
  inversion Hd as [|? ? Hd1 Hd2]; subst. simpl.
  specialize (IH (acc * radix + d) Hr ltac:(nia) Hd2). nia.
Qed.

(** The digit loop of [PositionToID] writes the digits of [temp] over the
    first [i] cells. *)
Lemma fill_digits_spec i radix : ∀ temp digits,
  0 < radix → 0 <= temp <= MaxInt64 → (i <= length digits)%nat →
  fill_digits i radix temp digits
  = Some (to_digits i radix temp ++ drop i digits).
Proof.
  induction i as [|i IH]; intros temp digits Hr Ht Hlen; [reflexivity|].
  cbn [fill_digits to_digits]. unfold rem64, quo64.
  destruct (decide (radix = 0)) as [->|_]; [lia|]. cbn.
  rewrite Z.rem_mod_nonneg, Z.quot_div_nonneg by lia.
  assert (Hdiv : 0 <= temp / radix <= temp).
  { split; [apply Z.div_pos; lia|]. apply Z.div_le_upper_bound; nia. }
  rewrite wrap_small by (unfold MinInt64; lia).
  rewrite IH; [|exact Hr|lia|rewrite length_insert; lia].
  f_equal. rewrite <- app_assoc. f_equal.
  destruct (lookup_lt_is_Some_2 digits i ltac:(lia)) as [x Hx].
  rewrite drop_insert_ge, Nat.sub_diag by lia.
  rewrite (drop_S _ _ _ Hx). reflexivity.
Qed.

Lemma make_nonneg {A} (zero : A) n :
  0 <= n → make zero n = Some (replicate (Z.to_nat n) zero).
Proof.
  intros Hn. unfold make. rewrite bool_decide_eq_false_2 by lia. reflexivity.
Qed.

Lemma make_cap_nonneg {A} n : 0 <= n → make_cap (A:=A) n = Some [].
Proof.
  intros Hn. unfold make_cap. rewrite bool_decide_eq_false_2 by lia.
  reflexivity.
Qed.

Lemma fill_digits_fresh n radix temp :
  0 < radix → 0 <= temp <= MaxInt64 →
  fill_digits n radix temp (replicate n 0) = Some (to_digits n radix temp).
Proof.
  intros Hr Ht.
  rewrite fill_digits_spec; [|exact Hr|exact Ht|rewrite length_replicate; lia].
  rewrite drop_replicate, Nat.sub_diag, app_nil_r. reflexivity.
Qed.

(** ** Rendering *)

Lemma at_index_note d : 0 <= d < 7 → at_index noteNames d = Some (note d).
Proof.
  intros Hd. unfold at_index, note.
  rewrite bool_decide_eq_false_2 by lia.
  destruct (lookup_lt_is_Some_2 noteNames (Z.to_nat d)) as [x ->];
    [simpl; lia|reflexivity].
Qed.

Lemma at_index_char d : 0 <= d < 12 → at_index charNames d = Some (char d).
Proof.
  intros Hd. unfold at_index, char.
  rewrite bool_decide_eq_false_2 by lia.
  destruct (lookup_lt_is_Some_2 charNames (Z.to_nat d)) as [x ->];
    [simpl; lia|reflexivity].
Qed.

Lemma append_notes_spec digits : ∀ result,
  Forall (λ d, 0 <= d < 7) digits →
  append_notes noteNames digits result
  = Some (result ++ concat (note <$> digits)).
Proof.
  induction digits as [|d digits IH]; intros result Hd.
  - simpl. rewrite app_nil_r. reflexivity.
  - inversion Hd as [|? ? Hd1 Hd2]; subst. cbn [append_notes].
    rewrite at_index_note by exact Hd1. cbn.
    rewrite IH by exact Hd2. rewrite <- app_assoc. reflexivity.
Qed.

Lemma append_chars_spec digits : ∀ result,
  Forall (λ d, 0 <= d < 12) digits →
  append_chars charNames digits result = Some (result ++ (char <$> digits)).
Proof.
  induction digits as [|d digits IH]; intros result Hd.
  - simpl. rewrite app_nil_r. reflexivity.
  - inversion Hd as [|? ? Hd1 Hd2]; subst. cbn [append_chars].
    rewrite at_index_char by exact Hd1. cbn.
    rewrite IH by exact Hd2. rewrite <- app_assoc. reflexivity.
Qed.

(** What [PositionToID] computes for a position that is not negative. *)
Lemma PositionToID_encode cfg position :
  representable cfg → 0 <= position <= MaxInt64 →
  PositionToID (New cfg) position
  = if bool_decide (capacity cfg < 0) then None
    else Some (encode cfg position).
Proof.
  intros Hcfg Hpos.
  destruct (representable_pows cfg Hcfg) as (H7 & H12 & Hj & He).
  cbv zeta in *. unfold PositionToID.
  rewrite bool_decide_eq_false_2 by lia.
  rewrite (equalMax_exact cfg Hcfg).
  unfold quo64, rem64.
  destruct (decide (12 ^ Config.EqualTemperamentDigits cfg = 0)); [lia|].
  rewrite Z.rem_mod_nonneg, Z.quot_div_nonneg by lia.
  assert (Hdiv : 0 <= position / 12 ^ Config.EqualTemperamentDigits cfg
                 <= position).
  { split; [apply Z.div_pos; lia|]. apply Z.div_le_upper_bound; nia. }
  pose proof (Z.mod_pos_bound position
                (12 ^ Config.EqualTemperamentDigits cfg) ltac:(lia)) as Hmod.
  rewrite wrap_small by (unfold MinInt64; lia).
  change (add64 _ (EqualTemperamentDigits (New cfg))) with (capacity cfg).
  unfold make_cap. case_bool_decide as Hcap; [reflexivity|].
  cbn [mbind option_bind New JustIntonationDigits EqualTemperamentDigits
       Separator justIntonationBytes equalTemperamentBytes].
  rewrite !make_nonneg by lia. cbn [mbind option_bind].
  rewrite New_justIntonationLen, New_equalTemperamentLen.
  rewrite !fill_digits_fresh by lia. cbn [mbind option_bind].
  rewrite append_notes_spec by (apply to_digits_range; lia).
  cbn [mbind option_bind].
  rewrite append_chars_spec by (apply to_digits_range; lia).
  unfold encode. rewrite app_nil_l, <- app_assoc. reflexivity.
Qed.

Lemma capacity_fits cfg :
  representable cfg → fits_int cfg → ¬ capacity cfg < 0.
Proof.
  intros Hcfg Hfit.
  destruct (representable_pows cfg Hcfg) as (_ & _ & Hj & He).
  cbv zeta in *. unfold fits_int, len in Hfit.
  unfold capacity, add64, mul64, len.
  pose proof (Nat2Z.is_nonneg (length (Config.Separator cfg))) as Hsep.
  assert (Hmin : MinInt64 <= 0) by (unfold MinInt64; lia).
  rewrite (wrap_small (_ * 2)) by lia.
  rewrite (wrap_small (_ * 2 + _)) by lia.
  rewrite wrap_small by lia. lia.
Qed.

(** [PositionToID] on a position that is not negative, for a configuration
    whose identifiers an [int] can measure. *)
Lemma PositionToID_Some cfg position :
  representable cfg → fits_int cfg → 0 <= position <= MaxInt64 →
  PositionToID (New cfg) position = Some (encode cfg position).
Proof.
  intros Hcfg Hfit Hpos.
  rewrite PositionToID_encode by assumption.
  rewrite bool_decide_eq_false_2 by (apply capacity_fits; assumption).
  reflexivity.
Qed.

(** ** The lookup tables [New] builds *)

Lemma index_from_other {K} `{Countable K} (keys : list K) : ∀ i m k,
  k ∉ keys → index_from i keys m !! k = m !! k.
Proof.
  induction keys as [|k' keys IH]; intros i m k Hk; [reflexivity|].
  apply not_elem_of_cons in Hk as [Hne Hk]. cbn [index_from].
  rewrite IH by exact Hk. apply lookup_insert_ne. congruence.
Qed.

(** A key of a table without repetition is mapped to its index. *)
Lemma index_from_key {K} `{Countable K} (keys : list K) : ∀ i m j k,
  NoDup keys → keys !! j = Some k →
  index_from i keys m !! k = Some (i + Z.of_nat j).
Proof.
  induction keys as [|k' keys IH]; intros i m j k Hnd Hj; [discriminate|].
  apply NoDup_cons in Hnd as [Hk' Hnd]. cbn [index_from].
  destruct j as [|j]; simplify_eq/=.
  - rewrite index_from_other by exact Hk'.
    rewrite lookup_insert_eq. f_equal. lia.
  - rewrite (IH _ _ j k Hnd Hj). f_equal. lia.
Qed.

(** Every entry of the map comes from the table. *)
Lemma index_from_entry {K} `{Countable K} (keys : list K) : ∀ i m k v,
  index_from i keys m !! k = Some v →
  m !! k = Some v ∨ ∃ j, keys !! j = Some k ∧ v = i + Z.of_nat j.
Proof.
  induction keys as [|k' keys IH]; intros i m k v Hv; [left; exact Hv|].
  cbn [index_from] in Hv. apply IH in Hv as [Hv|(j & Hj & ->)].
  - apply lookup_insert_Some in Hv as [[-> ->]|[_ Hv]]; [|left; exact Hv].
    right. exists O. split; [reflexivity|lia].
  - right. exists (S j). split; [exact Hj|lia].
Qed.

Lemma noteNames_NoDup : NoDup noteNames.
Proof. apply (bool_decide_unpack _). vm_compute. exact I. Qed.

Lemma charNames_NoDup : NoDup charNames.
Proof. apply (bool_decide_unpack _). vm_compute. exact I. Qed.

Lemma noteNames_lookup d :
  0 <= d < 7 → noteNames !! Z.to_nat d = Some (note d).
Proof.
  intros Hd. unfold note.
  destruct (lookup_lt_is_Some_2 noteNames (Z.to_nat d)) as [x ->];
    [simpl; lia|reflexivity].
Qed.

Lemma charNames_lookup d :
  0 <= d < 12 → charNames !! Z.to_nat d = Some (char d).
Proof.
  intros Hd. unfold char.
  destruct (lookup_lt_is_Some_2 charNames (Z.to_nat d)) as [x ->];
    [simpl; lia|reflexivity].
Qed.

Lemma justIntonationMap_note cfg d :
  0 <= d < 7 → justIntonationMap (New cfg) !! note d = Some d.
Proof.
  intros Hd. cbn [New justIntonationMap].
  rewrite (index_from_key noteNames 0 ∅ (Z.to_nat d) (note d)
             noteNames_NoDup (noteNames_lookup d Hd)).
  f_equal. lia.
Qed.

Lemma equalTemperamentMap_char cfg d :
  0 <= d < 12 → equalTemperamentMap (New cfg) !! char d = Some d.
Proof.
  intros Hd. cbn [New equalTemperamentMap].
  rewrite (index_from_key charNames 0 ∅ (Z.to_nat d) (char d)
             charNames_NoDup (charNames_lookup d Hd)).
  f_equal. lia.
Qed.

Lemma justIntonationMap_entry cfg k v :
  justIntonationMap (New cfg) !! k = Some v → 0 <= v < 7 ∧ k = note v.
Proof.
  cbn [New justIntonationMap]. intros Hv.
  apply index_from_entry in Hv as [Hv|(j & Hj & ->)];
    [rewrite lookup_empty in Hv; discriminate|].
  pose proof (lookup_lt_Some _ _ _ Hj) as Hlt. simpl in Hlt.
  split; [lia|]. unfold note.
  replace (Z.to_nat (0 + Z.of_nat j)) with j by lia.
  rewrite Hj. reflexivity.
Qed.

Lemma equalTemperamentMap_entry cfg k v :
  equalTemperamentMap (New cfg) !! k = Some v → 0 <= v < 12 ∧ k = char v.
Proof.
  cbn [New equalTemperamentMap]. intros Hv.
  apply index_from_entry in Hv as [Hv|(j & Hj & ->)];
    [rewrite lookup_empty in Hv; discriminate|].
  pose proof (lookup_lt_Some _ _ _ Hj) as Hlt. simpl in Hlt.
  split; [lia|]. unfold char.
  replace (Z.to_nat (0 + Z.of_nat j)) with j by lia.
  rewrite Hj. reflexivity.
Qed.

(** Every note name has two bytes. *)
Lemma note_two d : 0 <= d < 7 → ∃ a b, note d = [a; b].
Proof.
  intros Hd.
  assert (d = 0 ∨ d = 1 ∨ d = 2 ∨ d = 3 ∨ d = 4 ∨ d = 5 ∨ d = 6)
    as [->|[->|[->|[->|[->|[->| ->]]]]]] by lia;
    eexists _, _; reflexivity.
Qed.

Lemma note_length d : 0 <= d < 7 → length (note d) = 2%nat.
Proof. intros Hd. destruct (note_two d Hd) as (a & b & ->). reflexivity. Qed.

(** ** Parsing *)

(** One Horner step of the parsing loops does not wrap while the value
    stays below [MaxInt64]. *)
Lemma horner_step acc radix d :
  0 <= acc → 0 < radix → 0 <= d → acc * radix + d <= MaxInt64 →
  add64 (mul64 acc radix) d = acc * radix + d.
Proof.
  intros Hacc Hr Hd Hmax. unfold add64, mul64.
  assert (Hmin : MinInt64 <= 0) by (unfold MinInt64; lia).
  rewrite (wrap_small (acc * radix)) by nia.
  apply wrap_small. nia.
Qed.

(** Parsing the rendered digits is Horner's rule. *)
Lemma parse_just_notes cfg digits : ∀ acc,
  Forall (λ d, 0 <= d < 7) digits → 0 <= acc →
  from_digits 7 digits acc <= MaxInt64 →
  parse_just (New cfg) (concat (note <$> digits)) acc
  = Some (from_digits 7 digits acc).
Proof.
  induction digits as [|d digits IH]; intros acc Hd Hacc Hmax;
    [reflexivity|].
  inversion Hd as [|? ? Hd1 Hd2]; subst.
  pose proof (justIntonationMap_note cfg d Hd1) as Hmap.
  destruct (note_two d Hd1) as (a & b & Hab). rewrite Hab in Hmap.
  cbn [fmap list_fmap concat from_digits] in *. rewrite Hab.
  cbn [app parse_just]. rewrite Hmap, New_justIntonationLen.
  pose proof (from_digits_mono 7 digits (acc * 7 + d)
                ltac:(lia) ltac:(lia) Hd2).
  rewrite horner_step by lia.
  apply IH; [exact Hd2|lia|exact Hmax].
Qed.

Lemma parse_equal_chars cfg digits : ∀ acc,
  Forall (λ d, 0 <= d < 12) digits → 0 <= acc →
  from_digits 12 digits acc <= MaxInt64 →
  parse_equal (New cfg) (char <$> digits) acc
  = Some (from_digits 12 digits acc).
Proof.
  induction digits as [|d digits IH]; intros acc Hd Hacc Hmax;
    [reflexivity|].
  inversion Hd as [|? ? Hd1 Hd2]; subst.
  cbn [fmap list_fmap parse_equal from_digits] in *.
  rewrite (equalTemperamentMap_char cfg d Hd1), New_equalTemperamentLen.
  pose proof (from_digits_mono 12 digits (acc * 12 + d)
                ltac:(lia) ltac:(lia) Hd2).
  rewrite horner_step by lia.
  apply IH; [exact Hd2|lia|exact Hmax].
Qed.

(** A successful parse of [2 * n] bytes appends [n] base-7 digits to the
    accumulator. *)
Lemma parse_just_bound cfg n : ∀ justPart acc v,
  length justPart = (2 * n)%nat → 0 <= acc →
  (acc + 1) * 7 ^ Z.of_nat n <= MaxInt64 + 1 →
  parse_just (New cfg) justPart acc = Some v →
  acc * 7 ^ Z.of_nat n <= v < (acc + 1) * 7 ^ Z.of_nat n.
Proof.
  induction n as [|n IH]; intros justPart acc v Hlen Hacc Hmax Hv.
  - destruct justPart; [|discriminate]. simplify_eq/=. lia.
  - destruct justPart as [|a [|b rest]]; try discriminate.
    cbn [parse_just] in Hv.
    destruct (justIntonationMap (New cfg) !! [a; b]) as [index|] eqn:Hmap;
      [|discriminate].
    apply justIntonationMap_entry in Hmap as [Hindex _].
    rewrite New_justIntonationLen in Hv.
    rewrite Nat2Z.inj_succ, Z.pow_succ_r in * by lia.
    assert (Hpow : 0 < 7 ^ Z.of_nat n) by (apply Z.pow_pos_nonneg; lia).
    rewrite horner_step in Hv by nia.
    apply IH in Hv; [nia|simpl in Hlen; lia|lia|nia].
Qed.

Lemma parse_equal_bound cfg n : ∀ equalPart acc v,
  length equalPart = n → 0 <= acc →
  (acc + 1) * 12 ^ Z.of_nat n <= MaxInt64 + 1 →
  parse_equal (New cfg) equalPart acc = Some v →
  acc * 12 ^ Z.of_nat n <= v < (acc + 1) * 12 ^ Z.of_nat n.
Proof.
  induction n as [|n IH]; intros equalPart acc v Hlen Hacc Hmax Hv.
  - destruct equalPart; [|discriminate]. simplify_eq/=. lia.
  - destruct equalPart as [|c rest]; try discriminate.
    cbn [parse_equal] in Hv.
    destruct (equalTemperamentMap (New cfg) !! c) as [index|] eqn:Hmap;
      [|discriminate].
    apply equalTemperamentMap_entry in Hmap as [Hindex _].
    rewrite New_equalTemperamentLen in Hv.
    rewrite Nat2Z.inj_succ, Z.pow_succ_r in * by lia.
    assert (Hpow : 0 < 12 ^ Z.of_nat n) by (apply Z.pow_pos_nonneg; lia).
    rewrite horner_step in Hv by nia.
    apply IH in Hv; [nia|simpl in Hlen; lia|lia|nia].
Qed.

(** ** Splitting *)

Lemma HasPrefix_app p t : HasPrefix (p ++ t) p = true.
Proof.
  induction p as [|b p IH]; [destruct t; reflexivity|].
  simpl. rewrite bool_decide_eq_true_2 by reflexivity. exact IH.
Qed.

Lemma HasPrefix_inv s : ∀ p, HasPrefix s p = true → ∃ t, s = p ++ t.
Proof.
  induction s as [|a s IH]; intros [|b p] Hp; try discriminate.
  - exists []. reflexivity.
  - exists (a :: s). reflexivity.
  - simpl in Hp. apply andb_prop in Hp as [Hab Hp].
    apply bool_decide_eq_true_1 in Hab as ->.
    destruct (IH p Hp) as [t ->]. exists t. reflexivity.
Qed.

Lemma Index_prefix p t : Index (p ++ t) p = Some O.
Proof.
  destruct (p ++ t) eqn:Hs; cbn [Index]; rewrite <- Hs, HasPrefix_app;
    reflexivity.
Qed.

(** A string without the byte [c] has no instance of a separator with it. *)
Lemma Index_absent (c : ascii) s sep :
  c ∈ sep → c ∉ s → Index s sep = None.
Proof.
  intros Hsep. induction s as [|a s IH]; intros Hs.
  - destruct sep; [inversion Hsep|reflexivity].
  - cbn [Index].
    destruct (HasPrefix (a :: s) sep) eqn:Hp.
    + apply HasPrefix_inv in Hp as [t Ht]. exfalso. apply Hs.
      rewrite Ht. apply elem_of_app. left. exact Hsep.
    + rewrite IH; [reflexivity|]. intros Hc. apply Hs. right. exact Hc.
Qed.

(** In front of the separator, no instance of it starts: an instance would
    put the first [c] of the separator where there is none. *)
Lemma HasPrefix_before (c a : ascii) l1 l2 M P :
  c ∉ l1 → c ∉ a :: M →
  HasPrefix ((a :: M) ++ (l1 ++ c :: l2) ++ P) (l1 ++ c :: l2) = false.
Proof.
  intros Hl1 HM.
  destruct (HasPrefix _ _) eqn:Hp; [|reflexivity].
  apply HasPrefix_inv in Hp as [t Ht]. exfalso.
  assert (Hat : ((a :: M) ++ (l1 ++ c :: l2) ++ P) !! length l1 = Some c).
  { rewrite Ht, <- app_assoc, lookup_app_r by lia.
    rewrite Nat.sub_diag. reflexivity. }
  destruct (decide (length l1 < length (a :: M))%nat) as [Hlt|Hge].
  - rewrite lookup_app_l in Hat by exact Hlt.
    apply HM. eapply list_elem_of_lookup_2. exact Hat.
  - rewrite lookup_app_r in Hat by lia.
    rewrite <- !app_assoc, lookup_app_l in Hat by (simpl in *; lia).
    apply Hl1. eapply list_elem_of_lookup_2. exact Hat.
Qed.

Lemma Index_separator (c : ascii) l1 l2 M P :
  c ∉ l1 → c ∉ M →
  Index (M ++ (l1 ++ c :: l2) ++ P) (l1 ++ c :: l2) = Some (length M).
Proof.
  intros Hl1. induction M as [|a M IH]; intros HM.
  - exact (Index_prefix (l1 ++ c :: l2) P).
  - change (Index ((a :: M) ++ (l1 ++ c :: l2) ++ P) (l1 ++ c :: l2))
      with (if HasPrefix ((a :: M) ++ (l1 ++ c :: l2) ++ P) (l1 ++ c :: l2)
            then Some O
            else S <$> Index (M ++ (l1 ++ c :: l2) ++ P) (l1 ++ c :: l2)).
    rewrite HasPrefix_before by assumption.
    rewrite IH; [reflexivity|]. intros Hc. apply HM. right. exact Hc.
Qed.

(** An identifier with a distinctive separator splits into its two
    parts. *)
Lemma Split_genSplit s sep :
  sep ≠ [] → Split s sep = genSplit (length s) s sep.
Proof. destruct sep; [congruence|reflexivity]. Qed.

Lemma Split_parts sep M P :
  (∃ c, c ∈ sep ∧ (c ∉ M) ∧ (c ∉ P)) → Split (M ++ sep ++ P) sep = [M; P].
Proof.
  intros (c & Hsep & HM & HP).
  destruct (list_elem_of_split_l sep c Hsep) as (l1 & l2 & -> & Hl1).
  rewrite Split_genSplit by (destruct l1; discriminate).
  assert (Hfuel : ∃ fuel, length (M ++ (l1 ++ c :: l2) ++ P) = S fuel).
  { exists (length M + (length l1 + length l2) + length P)%nat.
    rewrite !length_app. simpl. lia. }
  destruct Hfuel as [fuel ->]. cbn [genSplit].
  rewrite (Index_separator c l1 l2 M P Hl1 HM).
  rewrite take_app_length.
  rewrite app_assoc, <- length_app, drop_app_length.
  f_equal. destruct fuel; [reflexivity|].
  cbn [genSplit]. rewrite (Index_absent c P _ Hsep HP). reflexivity.
Qed.

(** ** The codec on representable configurations *)

Lemma double_lt_pow7 m : 0 <= m → 2 * m < 7 ^ m.
Proof.
  intros Hm. pattern m. apply natlike_ind; [reflexivity| |exact Hm].
  intros x Hx IH. rewrite Z.pow_succ_r by exact Hx. lia.
Qed.

Lemma notes_length digits :
  Forall (λ d, 0 <= d < 7) digits →
  length (concat (note <$> digits)) = (2 * length digits)%nat.
Proof.
  induction 1 as [|d digits Hd _ IH]; [reflexivity|].
  cbn [fmap list_fmap concat]. rewrite length_app, IH, note_length by exact Hd.
  simpl. lia.
Qed.

Lemma notes_bytes digits c :
  Forall (λ d, 0 <= d < 7) digits →
  c ∈ concat (note <$> digits) → c ∈ alphabet_bytes.
Proof.
  intros Hd. induction Hd as [|d digits Hd _ IH]; [inversion 1|].
  cbn [fmap list_fmap concat]. intros [Hc|Hc]%elem_of_app; [|exact (IH Hc)].
  unfold alphabet_bytes. apply elem_of_app. left.
  apply list_elem_of_In, in_concat. exists (note d). split.
  - apply list_elem_of_In. eapply list_elem_of_lookup_2.
    apply noteNames_lookup. exact Hd.
  - apply list_elem_of_In. exact Hc.
Qed.

Lemma chars_bytes digits c :
  Forall (λ d, 0 <= d < 12) digits →
  c ∈ char <$> digits → c ∈ alphabet_bytes.
Proof.
  intros Hd Hc. apply list_elem_of_fmap in Hc as (d & -> & Hin).
  rewrite Forall_forall in Hd. specialize (Hd d Hin).
  unfold alphabet_bytes. apply elem_of_app. right.
  eapply list_elem_of_lookup_2. apply charNames_lookup. exact Hd.
Qed.

(** Decoding what [PositionToID] renders gives the position back modulo
    the size of the identifier space. *)
Lemma IDToPosition_encode cfg position :
  representable cfg → distinctive (Config.Separator cfg) →
  0 <= position <= MaxInt64 →
  IDToPosition (New cfg) (encode cfg position)
  = position mod (7 ^ Config.JustIntonationDigits cfg
                  * 12 ^ Config.EqualTemperamentDigits cfg).
Proof.
  intros Hcfg (c & Hsep & Hc) Hpos.
  destruct (representable_pows cfg Hcfg) as (H7 & H12 & Hj & He).
  pose proof (double_lt_pow7 _ (proj1 Hj)) as H2j.
  cbv zeta in *.
  set (just := Config.JustIntonationDigits cfg) in *.
  set (equal := Config.EqualTemperamentDigits cfg) in *.
  assert (Hmin : MinInt64 <= 0) by (unfold MinInt64; lia).
  pose proof (to_digits_range (Z.to_nat just) 7 (position / 12 ^ equal)
                ltac:(lia)) as Hjd.
  pose proof (to_digits_range (Z.to_nat equal) 12 (position mod 12 ^ equal)
                ltac:(lia)) as Hed.
  unfold IDToPosition, encode. fold just equal.
  cbn [New Separator JustIntonationDigits EqualTemperamentDigits].
  fold just equal.
  rewrite Split_parts.
  2:{ exists c. split; [exact Hsep|]. split; intros Hin; apply Hc.
      - exact (notes_bytes _ _ Hjd Hin).
      - exact (chars_bytes _ _ Hed Hin). }
  rewrite bool_decide_eq_false_2.
  2:{ unfold len, mul64.
      rewrite notes_length, length_fmap, !to_digits_length by exact Hjd.
      rewrite wrap_small by lia. lia. }
  pose proof (from_to_digits (Z.to_nat just) 7 (position / 12 ^ equal) 0
                ltac:(lia)) as Hjv.
  pose proof (from_to_digits (Z.to_nat equal) 12 (position mod 12 ^ equal) 0
                ltac:(lia)) as Hev.
  rewrite !Z2Nat.id in Hjv, Hev by lia.
  pose proof (Z.mod_pos_bound (position / 12 ^ equal) (7 ^ just)
                ltac:(lia)) as Hjm.
  pose proof (Z.mod_pos_bound position (12 ^ equal) ltac:(lia)) as Hem.
  rewrite Z.mod_mod in Hev by lia.
  rewrite parse_just_notes by (try exact Hjd; lia).
  rewrite parse_equal_chars by (try exact Hed; lia).
  rewrite Hjv, Hev.
  change (intPow (equalTemperamentLen (New cfg)) equal)
    with (intPow (equalTemperamentLen (New cfg))
            (EqualTemperamentDigits (New cfg))).
  rewrite (equalMax_exact cfg Hcfg). fold equal.
  rewrite (Z.mul_comm (7 ^ just)).
  rewrite (Z.rem_mul_r position (12 ^ equal) (7 ^ just)) by lia.
  assert (Hdiv : 0 <= position / 12 ^ equal) by (apply Z.div_pos; lia).
  pose proof (Z.div_mod position (12 ^ equal) ltac:(lia)) as Hdm.
  assert (Hle : (position / 12 ^ equal) mod 7 ^ just <= position / 12 ^ equal)
    by (apply Z.mod_le; lia).
  rewrite horner_step; [lia|lia|lia|lia|].
  revert Hdm Hle Hjm Hem Hdiv.
  generalize (position / 12 ^ equal), (position mod 12 ^ equal),
    (12 ^ equal), (7 ^ just).
  intros q r E J HE. intros. nia.
Qed.

Lemma IDToPosition_parts cfg id :
  IDToPosition (New cfg) id ≠ -1 →
  ∃ justPart equalPart justValue equalValue,
    Split id (Config.Separator cfg) = [justPart; equalPart]
    ∧ len justPart = mul64 (Config.JustIntonationDigits cfg) 2
    ∧ len equalPart = Config.EqualTemperamentDigits cfg
    ∧ parse_just (New cfg) justPart 0 = Some justValue
    ∧ parse_equal (New cfg) equalPart 0 = Some equalValue
    ∧ IDToPosition (New cfg) id
      = add64 (mul64 justValue
                 (intPow (equalTemperamentLen (New cfg))
                    (EqualTemperamentDigits (New cfg))))
              equalValue.
Proof.
  unfold IDToPosition. cbn [New Separator JustIntonationDigits].
  destruct (Split id (Config.Separator cfg)) as [|justPart [|equalPart [|]]];
    try congruence.
  case_bool_decide as Hlen; [congruence|].
  destruct (parse_just _ justPart 0) as [justValue|] eqn:Hjust;
    [|congruence].
  destruct (parse_equal _ equalPart 0) as [equalValue|] eqn:Hequal;
    [|congruence].
  intros _. exists justPart, equalPart, justValue, equalValue.
  repeat split; try reflexivity; try assumption.
  - destruct (decide (len justPart
                      = mul64 (Config.JustIntonationDigits cfg) 2));
      [assumption|]. exfalso. apply Hlen. left. assumption.
  - destruct (decide (len equalPart = Config.EqualTemperamentDigits cfg));
      [assumption|]. exfalso. apply Hlen. right. assumption.
Qed.

(** C10. For every configuration with at least one digit in each part and
    a representable [7 ^ just * 12 ^ equal], and every input string,
    [IDToPosition] returns [-1] or a position in [[0, MaxCombinations)]. *)
Theorem IDToPosition_in_range (cfg : Config.t) (id : list ascii) :
  1 <= Config.JustIntonationDigits cfg →
  1 <= Config.EqualTemperamentDigits cfg →
  7 ^ Config.JustIntonationDigits cfg
  * 12 ^ Config.EqualTemperamentDigits cfg <= MaxInt64 →
  IDToPosition (New cfg) id = -1
  ∨ 0 <= IDToPosition (New cfg) id < MaxCombinations (New cfg).
Proof.
  intros Hj1 He1 Hmax.
  assert (Hcfg : representable cfg) by (unfold representable; lia).
  destruct (decide (IDToPosition (New cfg) id = -1)) as [|Hok];
    [left; assumption|right].
  destruct (IDToPosition_parts cfg id Hok)
    as (justPart & equalPart & justValue & equalValue
        & _ & Hlj & Hle & Hjust & Hequal & ->).
  rewrite (equalMax_exact cfg Hcfg), (MaxCombinations_representable cfg Hcfg).
  destruct (representable_pows cfg Hcfg) as (H7 & H12 & Hj & He).
  pose proof (double_lt_pow7 _ (proj1 Hj)) as H2j.
  cbv zeta in *.
  set (just := Config.JustIntonationDigits cfg) in *.
  set (equal := Config.EqualTemperamentDigits cfg) in *.
  assert (Hmin : MinInt64 <= 0) by (unfold MinInt64; lia).
  unfold mul64 in Hlj. rewrite wrap_small in Hlj by lia. unfold len in *.
  apply (parse_just_bound cfg (Z.to_nat just)) in Hjust;
    [|lia|lia|rewrite Z2Nat.id by lia; lia].
  apply (parse_equal_bound cfg (Z.to_nat equal)) in Hequal;
    [|lia|lia|rewrite Z2Nat.id by lia; lia].
  rewrite !Z2Nat.id in * by lia.
  rewrite horner_step by nia. nia.
Qed.

Lemma IDToPosition_in_range_witness :
  IDToPosition g121 (str "re-00") = -1
  ∨ 0 <= IDToPosition g121 (str "re-00") < MaxCombinations g121.
Proof.
  apply (IDToPosition_in_range (config 1 2 "-") (str "re-00"));
    unfold MaxInt64; simpl; lia.
Defined.

(** C9. For every configuration with at least one digit in each part and
    a representable [7 ^ just * 12 ^ equal], and every position that is
    not negative, [PositionToID] of the position is [PositionToID] of the
    position modulo [MaxCombinations]: positions past the range wrap
    around. *)
Theorem PositionToID_wraps_around (cfg : Config.t) (position : Z) :
  1 <= Config.JustIntonationDigits cfg →
  1 <= Config.EqualTemperamentDigits cfg →
  7 ^ Config.JustIntonationDigits cfg
  * 12 ^ Config.EqualTemperamentDigits cfg <= MaxInt64 →
  0 <= position → int64 position →
  PositionToID (New cfg) position
  = PositionToID (New cfg) (position mod MaxCombinations (New cfg)).
Proof.
  intros Hj1 He1 Hmax Hpos [_ Hint].
  assert (Hcfg : representable cfg) by (unfold representable; lia).
  rewrite (MaxCombinations_representable cfg Hcfg).
  destruct (representable_pows cfg Hcfg) as (H7 & H12 & Hj & He).
  cbv zeta in *.
  set (just := Config.JustIntonationDigits cfg) in *.
  set (equal := Config.EqualTemperamentDigits cfg) in *.
  pose proof (Z.mod_pos_bound position (7 ^ just * 12 ^ equal) ltac:(nia))
    as Hmod.
  rewrite !PositionToID_encode by (try exact Hcfg; lia).
  case_bool_decide; [reflexivity|]. f_equal. unfold encode. fold just equal.
  rewrite (Z.mul_comm (7 ^ just)).
  rewrite (Z.rem_mul_r position (12 ^ equal) (7 ^ just)) by lia.
  pose proof (Z.mod_pos_bound position (12 ^ equal) ltac:(lia)) as Hr.
  f_equal; [|f_equal].
  - f_equal. f_equal.
    rewrite (Z.mul_comm (12 ^ equal)), Z.div_add by lia.
    rewrite (Z.div_small (position mod 12 ^ equal)) by exact Hr.
    rewrite Z.add_0_l.
    rewrite <- (to_digits_mod _ _ (position / 12 ^ equal)) by lia.
    rewrite Z2Nat.id by lia. reflexivity.
  - f_equal. f_equal.
    rewrite (Z.mul_comm (12 ^ equal)), Z_mod_plus_full.
    rewrite Z.mod_mod by lia. reflexivity.
Qed.

(** Positions 144 and 1152 = 144 + 1008 get the same identifier. *)
Lemma PositionToID_wraps_around_witness :
  PositionToID g121 1152 = PositionToID g121 144.
Proof.
  apply (PositionToID_wraps_around (config 1 2 "-") 1152);
    unfold int64, MinInt64, MaxInt64; simpl; lia.
Defined.

(** C1 fails on the code. With one digit in each part and the empty
    separator, which [New] accepts and [PositionToID] serves, position 5
    is in [[0, MaxCombinations)] and [PositionToID] returns [do5] for it;
    [strings.Split] on an empty separator cuts [do5] into its three bytes
    instead of the two parts, so [IDToPosition] returns [-1], not 5. *)
Lemma IDToPosition_PositionToID_empty_separator :
  0 <= 5 < MaxCombinations (New (config 1 1 ""))
  ∧ PositionToID (New (config 1 1 "")) 5 = Some (str "do5")
  ∧ Split (str "do5") (str "") = [str "d"; str "o"; str "5"]
  ∧ IDToPosition (New (config 1 1 "")) (str "do5") = -1.
Proof. vm_compute. repeat split; discriminate. Qed.

(** C8. With one just-intonation digit, two equal-temperament digits and
    the separator [-], positions 0, 1, 12 and 144 are [do-00], [do-01],
    [do-10] and [re-00]. *)
Theorem PositionToID_examples :
  PositionToID g121 0 = Some (str "do-00")
  ∧ PositionToID g121 1 = Some (str "do-01")
  ∧ PositionToID g121 12 = Some (str "do-10")
  ∧ PositionToID g121 144 = Some (str "re-00").
Proof. repeat split; vm_compute; reflexivity. Qed.

Lemma encode_length cfg position :
  representable cfg →
  len (encode cfg position)
  = 2 * Config.JustIntonationDigits cfg + len (Config.Separator cfg)
    + Config.EqualTemperamentDigits cfg.
Proof.
  intros (Hj & He & _). unfold encode, len.
  rewrite !length_app, length_fmap, notes_length, !to_digits_length
    by (apply to_digits_range; lia).
  lia.
Qed.

(** What [PositionToID] computes for a position that is not negative
    when [equalMax], as [intPow] returns it, is positive: the digits of
    [position / equalMax] and of [position mod equalMax]. Nothing else is
    asked of the two powers. *)
Lemma PositionToID_positive_equalMax cfg position :
  0 <= Config.JustIntonationDigits cfg →
  0 <= Config.EqualTemperamentDigits cfg →
  0 < intPow 12 (Config.EqualTemperamentDigits cfg) →
  0 <= position <= MaxInt64 →
  PositionToID (New cfg) position
  = if bool_decide (capacity cfg < 0) then None
    else Some (concat (note <$> to_digits
                         (Z.to_nat (Config.JustIntonationDigits cfg)) 7
                         (position
                          / intPow 12 (Config.EqualTemperamentDigits cfg)))
               ++ Config.Separator cfg
               ++ (char <$> to_digits
                     (Z.to_nat (Config.EqualTemperamentDigits cfg)) 12
                     (position
                      mod intPow 12 (Config.EqualTemperamentDigits cfg)))).
Proof.
  intros Hj He HE Hpos. unfold PositionToID.
  rewrite bool_decide_eq_false_2 by lia.
  rewrite New_equalTemperamentLen.
  change (EqualTemperamentDigits (New cfg))
    with (Config.EqualTemperamentDigits cfg).
  revert HE.
  generalize (intPow 12 (Config.EqualTemperamentDigits cfg)) as equalMax.
  intros equalMax HE.
  unfold quo64, rem64.
  destruct (decide (equalMax = 0)); [lia|].
  rewrite Z.rem_mod_nonneg, Z.quot_div_nonneg by lia.
  assert (Hdiv : 0 <= position / equalMax <= position).
  { split; [apply Z.div_pos; lia|]. apply Z.div_le_upper_bound; nia. }
  pose proof (Z.mod_pos_bound position equalMax HE) as Hmod.
  pose proof (Z.mod_le position equalMax ltac:(lia) HE) as Hle.
  rewrite !wrap_small by (unfold MinInt64; lia).
  change (add64 _ (Config.EqualTemperamentDigits cfg)) with (capacity cfg).
  unfold make_cap. case_bool_decide as Hcap; [reflexivity|].
  cbn [mbind option_bind New JustIntonationDigits EqualTemperamentDigits
       Separator justIntonationBytes equalTemperamentBytes].
  rewrite !make_nonneg by lia. cbn [mbind option_bind].
  rewrite New_justIntonationLen.
  rewrite !fill_digits_fresh by lia. cbn [mbind option_bind].
  rewrite append_notes_spec by (apply to_digits_range; lia).
  cbn [mbind option_bind].
  rewrite append_chars_spec by (apply to_digits_range; lia).
  rewrite app_nil_l, <- app_assoc. reflexivity.
Qed.

(** A negative capacity is a panic, whatever the powers are. *)
Lemma PositionToID_negative_capacity cfg position :
  0 <= position → capacity cfg < 0 → PositionToID (New cfg) position = None.
Proof.
  intros Hpos Hcap. unfold PositionToID.
  rewrite bool_decide_eq_false_2 by lia.
  change (add64 _ (EqualTemperamentDigits (New cfg))) with (capacity cfg).
  unfold make_cap. rewrite (bool_decide_eq_true_2 _ Hcap).
  generalize (intPow (equalTemperamentLen (New cfg))
                (EqualTemperamentDigits (New cfg))) as equalMax.
  intros equalMax.
  destruct (quo64 position equalMax); [|reflexivity].
  destruct (rem64 position equalMax); reflexivity.
Qed.

(** Up to 17 digits [12 ^ equal] is below [2 ^ 63]. *)
Lemma equalMax_positive equal : 0 <= equal <= 17 → 0 < wrap (12 ^ equal).
Proof.
  intros He.
  assert (Hle : 12 ^ equal <= 12 ^ 17) by (apply Z.pow_le_mono_r; lia).
  assert (Hpos : 0 < 12 ^ equal) by (apply Z.pow_pos_nonneg; lia).
  assert (Hmax : 12 ^ 17 <= MaxInt64) by (vm_compute; discriminate).
  rewrite wrap_small; [exact Hpos|]. revert Hle Hpos Hmax.
  generalize (12 ^ equal), (12 ^ 17). unfold MinInt64. intros. lia.
Qed.

(** The capacity of the result does not wrap when the identifier length
    fits an [int]. *)
Lemma capacity_exact cfg :
  0 <= Config.JustIntonationDigits cfg →
  0 <= Config.EqualTemperamentDigits cfg →
  fits_int cfg →
  capacity cfg = 2 * Config.JustIntonationDigits cfg
                 + len (Config.Separator cfg)
                 + Config.EqualTemperamentDigits cfg.
Proof.
  intros Hj He Hfit. unfold fits_int, len in Hfit.
  unfold capacity, add64, mul64, len.
  pose proof (Nat2Z.is_nonneg (length (Config.Separator cfg))) as Hsep.
  assert (Hmin : MinInt64 <= 0) by (unfold MinInt64; lia).
  rewrite (wrap_small (_ * 2)) by lia.
  rewrite (wrap_small (_ * 2 + _)) by lia.
  rewrite wrap_small by lia. lia.
Qed.

(** C7 (as amended). For a configuration with at least one digit in each
    part whose [12 ^ equal] is positive as a 64-bit integer (as it is up to
    17 digits) and whose identifier length fits an [int]: [PositionToID]
    returns the empty string exactly for the negative positions, and for
    every other position, past [MaxCombinations] or not, it returns an
    identifier of [2 * just] bytes, the separator and [equal] bytes.
    Nothing is asked of [7 ^ just]. *)
Theorem PositionToID_empty_iff_negative (cfg : Config.t) (position : Z) :
  1 <= Config.JustIntonationDigits cfg →
  1 <= Config.EqualTemperamentDigits cfg →
  0 < wrap (12 ^ Config.EqualTemperamentDigits cfg) →
  fits_int cfg → int64 position →
  (PositionToID (New cfg) position = Some [] ↔ position < 0)
  ∧ (0 <= position →
     ∃ id, PositionToID (New cfg) position = Some id
           ∧ len id = 2 * Config.JustIntonationDigits cfg
                      + len (Config.Separator cfg)
                      + Config.EqualTemperamentDigits cfg).
Proof.
  intros Hj1 He1 Hmax Hfit [_ Hint].
  destruct (decide (position < 0)) as [Hneg|Hpos].
  { split; [|lia]. unfold PositionToID.
    rewrite bool_decide_eq_true_2 by exact Hneg. tauto. }
  pose proof (capacity_exact cfg ltac:(lia) ltac:(lia) Hfit) as Hcap.
  pose proof (Nat2Z.is_nonneg (length (Config.Separator cfg))) as Hsep.
  fold (len (Config.Separator cfg)) in Hsep.
  assert (He : 0 <= Config.EqualTemperamentDigits cfg <= MaxInt64)
    by (unfold fits_int in Hfit; lia).
  rewrite <- (intPow_wrap 12 _ He) in Hmax.
  rewrite PositionToID_positive_equalMax by (try assumption; lia).
  rewrite bool_decide_eq_false_2 by lia.
  match goal with |- context [Some ?s = _] => set (id := s) end.
  assert (Hlen : len id = 2 * Config.JustIntonationDigits cfg
                          + len (Config.Separator cfg)
                          + Config.EqualTemperamentDigits cfg).
  { unfold id, len.
    rewrite !length_app, length_fmap, notes_length, !to_digits_length
      by (apply to_digits_range; lia).
    lia. }
  split.
  - split; [|lia]. intros [= Hid]. rewrite Hid in Hlen.
    unfold len in Hlen. simpl in Hlen. unfold len in Hsep. lia.
  - intros _. exists id. split; [reflexivity|exact Hlen].
Qed.

(** Position 2000 is past the 1008 identifiers of the configuration and
    still gets an identifier of five bytes. *)
Lemma PositionToID_empty_iff_negative_witness :
  (PositionToID g121 2000 = Some [] ↔ 2000 < 0)
  ∧ (0 <= 2000 → ∃ id, PositionToID g121 2000 = Some id ∧ len id = 5).
Proof.
  apply (PositionToID_empty_iff_negative (config 1 2 "-") 2000).
  - simpl. lia.
  - simpl. lia.
  - vm_compute. reflexivity.
  - vm_compute. discriminate.
  - unfold int64, MinInt64, MaxInt64. lia.
Defined.

(** C7 (as stated) fails where [12 ^ equal] does not stay positive in 64
    bits. With 32 equal-temperament digits it wraps to 0 and
    [PositionToID] panics on the division at position 0; with 31 digits it
    wraps to [- 2 ^ 62] and position [MaxInt64] gets the just-intonation
    value [-1], whose digit [-1] indexes no note name: a panic again.
    Neither position is negative and neither gets an identifier. *)
Lemma PositionToID_panics_past_64_bits :
  (0 <= 0 ∧ PositionToID (New (config 1 32 "-")) 0 = None)
  ∧ (0 <= MaxInt64 ∧ int64 MaxInt64
     ∧ intPow 12 31 = - 2 ^ 62
     ∧ PositionToID (New (config 1 31 "-")) MaxInt64 = None).
Proof.
  split; [split; [lia|vm_compute; reflexivity]|].
  split; [unfold MaxInt64; lia|].
  split; [unfold int64, MinInt64, MaxInt64; lia|].
  split; vm_compute; reflexivity.
Qed.

(** ** Rejected identifiers *)

(** A successful parse has met note names only. *)
Lemma parse_just_pairs cfg (i : nat) : ∀ justPart acc v,
  parse_just (New cfg) justPart acc = Some v →
  (2 * i < length justPart)%nat →
  take 2 (drop (2 * i) justPart) ∈ noteNames.
Proof.
  induction i as [|i IH]; intros justPart acc v Hv Hi;
    destruct justPart as [|a [|b rest]]; simpl in Hi; try lia;
    try discriminate; cbn [parse_just] in Hv;
    destruct (justIntonationMap (New cfg) !! [a; b]) as [index|] eqn:Hmap;
    try discriminate.
  - apply justIntonationMap_entry in Hmap as [Hindex Hnote].
    change (take 2 (drop (2 * 0) (a :: b :: rest))) with [a; b].
    rewrite Hnote. eapply list_elem_of_lookup_2.
    apply noteNames_lookup. exact Hindex.
  - replace (2 * S i)%nat with (S (S (2 * i))) by lia. cbn [drop].
    eapply IH; [exact Hv|lia].
Qed.

(** A successful parse has met characters of the second alphabet only. *)
Lemma parse_equal_members cfg equalPart : ∀ acc v c,
  parse_equal (New cfg) equalPart acc = Some v →
  c ∈ equalPart → c ∈ charNames.
Proof.
  induction equalPart as [|c' rest IH]; intros acc v c Hv Hc;
    [inversion Hc|].
  cbn [parse_equal] in Hv.
  destruct (equalTemperamentMap (New cfg) !! c') as [index|] eqn:Hmap;
    [|discriminate].
  apply elem_of_cons in Hc as [->|Hc]; [|exact (IH _ _ _ Hv Hc)].
  apply equalTemperamentMap_entry in Hmap as [Hindex Hchar].
  rewrite Hchar. eapply list_elem_of_lookup_2.
  apply charNames_lookup. exact Hindex.
Qed.

(** C6. [IDToPosition] returns [-1] whenever the split on the separator
    does not give two segments, a segment has the wrong length, or a pair
    of the first segment or a character of the second is not in its
    alphabet; the three identifiers [do00], [d-00] and [dx-00] are
    rejected under one digit, two digits and the separator [-]. (The
    digit count times two is taken to fit an [int].) *)
Theorem IDToPosition_rejects :
  (∀ cfg id,
     int64 (Config.JustIntonationDigits cfg * 2) →
     malformed cfg id → IDToPosition (New cfg) id = -1)
  ∧ IDToPosition g121 (str "do00") = -1
  ∧ IDToPosition g121 (str "d-00") = -1
  ∧ IDToPosition g121 (str "dx-00") = -1.
Proof.
  split; [|repeat split; vm_compute; reflexivity].
  intros cfg id Hint Hbad.
  destruct (decide (IDToPosition (New cfg) id = -1)) as [|Hok];
    [assumption|exfalso].
  destruct (IDToPosition_parts cfg id Hok)
    as (justPart & equalPart & justValue & equalValue
        & Hsplit & Hlj & Hle & Hjust & Hequal & _).
  unfold mul64 in Hlj. rewrite wrap_small in Hlj by exact Hint.
  destruct Hbad as [Hn|(jp & ep & Hparts & Hbad)].
  - rewrite Hsplit in Hn. apply Hn. reflexivity.
  - rewrite Hsplit in Hparts. injection Hparts as <- <-.
    destruct Hbad as [Hbad|[Hbad|[(i & Hi & Hbad)|(c & Hc & Hbad)]]].
    + exact (Hbad Hlj).
    + exact (Hbad Hle).
    + exact (Hbad (parse_just_pairs cfg i _ _ _ Hjust Hi)).
    + exact (Hbad (parse_equal_members cfg _ _ _ c Hequal Hc)).
Qed.

(** [dx-00] is malformed by its pair [dx], and rejected. *)
Lemma IDToPosition_rejects_witness : IDToPosition g121 (str "dx-00") = -1.
Proof.
  apply (proj1 IDToPosition_rejects (config 1 2 "-") (str "dx-00")).
  - unfold int64, MinInt64, MaxInt64. simpl. lia.
  - right. exists (str "dx"), (str "00"). split; [vm_compute; reflexivity|].
    right. right. left. exists O. split; [simpl; lia|].
    apply (bool_decide_unpack _). vm_compute. exact I.
Defined.

(** ** Sequential batches *)

Lemma store_length {A} (slice slice' : list A) i v :
  store slice i v = Some slice' → length slice' = length slice.
Proof.
  unfold store. case_bool_decide; [|discriminate].
  intros [= <-]. apply length_insert.
Qed.

Lemma store_Some {A} (slice : list A) i v :
  0 <= i < len slice → store slice i v = Some (<[Z.to_nat i := v]> slice).
Proof.
  intros Hi. unfold store. rewrite bool_decide_eq_true_2 by exact Hi.
  reflexivity.
Qed.

Lemma fill_ids_length g startPosition rounds : ∀ i ids ids',
  fill_ids g startPosition rounds i ids = Some ids' →
  length ids' = length ids.
Proof.
  induction rounds as [|rounds IH]; intros i ids ids' Hfill.
  - injection Hfill as <-. reflexivity.
  - cbn [fill_ids] in Hfill.
    destruct (PositionToID g (add64 startPosition i)) as [id|];
      [|discriminate].
    cbn in Hfill. destruct (store ids i id) as [ids1|] eqn:Hstore;
      [|discriminate].
    cbn in Hfill. rewrite (IH _ _ _ Hfill).
    exact (store_length _ _ _ _ Hstore).
Qed.

Lemma assign_ids_length g positions : ∀ i ids ids',
  assign_ids g positions i ids = Some ids' → length ids' = length ids.
Proof.
  induction positions as [|pos positions IH]; intros i ids ids' Hassign.
  - injection Hassign as <-. reflexivity.
  - cbn [assign_ids] in Hassign.
    destruct (PositionToID g pos) as [id|]; [|discriminate].
    cbn in Hassign. destruct (store ids i id) as [ids1|] eqn:Hstore;
      [|discriminate].
    cbn in Hassign. rewrite (IH _ _ _ Hassign).
    exact (store_length _ _ _ _ Hstore).
Qed.

Lemma MaxCombinations_int64 g : int64 (MaxCombinations g).
Proof. apply wrap_range. Qed.

Lemma clamped_pos g count startPosition :
  0 < count → 0 <= startPosition < MaxCombinations g →
  0 < clamped g count startPosition.
Proof.
  intros Hcount Hstart. unfold clamped. case_bool_decide; [|exact Hcount].
  destruct (MaxCombinations_int64 g) as [_ Hmax].
  unfold sub64. rewrite wrap_small; [lia|]. unfold MinInt64. lia.
Qed.

Lemma BatchGenerateIDs_clamped g count startPosition :
  0 < count → 0 <= startPosition < MaxCombinations g →
  BatchGenerateIDs g count startPosition
  = fill_ids g startPosition (Z.to_nat (clamped g count startPosition)) 0
      (replicate (Z.to_nat (clamped g count startPosition)) []).
Proof.
  intros Hcount Hstart. unfold BatchGenerateIDs.
  rewrite bool_decide_eq_false_2 by lia.
  rewrite bool_decide_eq_false_2 by lia.
  fold (clamped g count startPosition).
  pose proof (clamped_pos g count startPosition Hcount Hstart).
  rewrite bool_decide_eq_false_2 by lia.
  rewrite make_nonneg by lia. reflexivity.
Qed.

Lemma BatchGenerateIDs_empty g count startPosition :
  BatchGenerateIDs g count startPosition = Some []
  ↔ count <= 0 ∨ startPosition < 0 ∨ startPosition >= MaxCombinations g.
Proof.
  split.
  - intros Hempty.
    destruct (decide (count <= 0)) as [|Hcount]; [tauto|].
    destruct (decide (startPosition < 0)) as [|Hneg]; [tauto|].
    destruct (decide (startPosition >= MaxCombinations g)) as [|Hmax];
      [tauto|].
    exfalso. rewrite BatchGenerateIDs_clamped in Hempty by lia.
    apply fill_ids_length in Hempty. rewrite length_replicate in Hempty.
    pose proof (clamped_pos g count startPosition ltac:(lia) ltac:(lia)).
    simpl in Hempty. lia.
  - intros Hguard. unfold BatchGenerateIDs.
    destruct (decide (count <= 0 ∨ startPosition < 0)) as [Hfirst|Hfirst].
    + rewrite bool_decide_eq_true_2 by exact Hfirst. reflexivity.
    + rewrite bool_decide_eq_false_2 by exact Hfirst.
      rewrite bool_decide_eq_true_2 by lia. reflexivity.
Qed.

Section RandomEmpty.
Context {Rand : Type} (Intn : Rand → Z → Z * Rand).

Lemma BatchGenerateRandomIDs_length fuel g r count ids r' :
  0 < count <= MaxCombinations g →
  BatchGenerateRandomIDs Intn fuel g r count = Returns (ids, r') →
  len ids = count.
Proof.
  intros Hcount. unfold BatchGenerateRandomIDs.
  rewrite !bool_decide_eq_false_2 by lia.
  destruct (randomSample Intn fuel r (MaxCombinations g) count)
    as [[positions r1]| |]; try discriminate.
  cbn. rewrite make_nonneg by lia. cbn.
  destruct (assign_ids g positions 0 _) as [ids1|] eqn:Hassign;
    [|discriminate].
  cbn. intros [= <- <-]. apply assign_ids_length in Hassign.
  unfold len. rewrite Hassign, length_replicate. lia.
Qed.

Lemma BatchGenerateRandomIDs_empty fuel g r count :
  (∃ r', BatchGenerateRandomIDs Intn fuel g r count = Returns ([], r'))
  ↔ count <= 0 ∨ count > MaxCombinations g.
Proof.
  split.
  - intros [r' Hempty].
    destruct (decide (count <= 0)) as [|Hcount]; [tauto|].
    destruct (decide (count > MaxCombinations g)) as [|Hmax]; [tauto|].
    apply BatchGenerateRandomIDs_length in Hempty; [|lia].
    unfold len in Hempty. simpl in Hempty. lia.
  - intros Hguard. exists r. unfold BatchGenerateRandomIDs.
    destruct (decide (count <= 0)) as [Hcount|Hcount].
    + rewrite bool_decide_eq_true_2 by exact Hcount. reflexivity.
    + rewrite bool_decide_eq_false_2 by exact Hcount.
      rewrite bool_decide_eq_true_2 by lia. reflexivity.
Qed.

End RandomEmpty.

(** C5. [BatchGenerateRandomIDs] returns the empty sequence exactly when
    [count <= 0] or [count > MaxCombinations], and [BatchGenerateIDs]
    exactly when [count <= 0], [startPosition < 0] or
    [startPosition >= MaxCombinations]; this holds for every generator,
    every random stream and every bound on the draws. *)
Theorem empty_batch_iff {Rand : Type} (Intn : Rand → Z → Z * Rand)
    (fuel : nat) (g : Generator) (r : Rand) (count startPosition : Z) :
  ((∃ r', BatchGenerateRandomIDs Intn fuel g r count = Returns ([], r'))
   ↔ count <= 0 ∨ count > MaxCombinations g)
  ∧ (BatchGenerateIDs g count startPosition = Some []
     ↔ count <= 0 ∨ startPosition < 0 ∨ startPosition >= MaxCombinations g).
Proof.
  split.
  - apply BatchGenerateRandomIDs_empty.
  - apply BatchGenerateIDs_empty.
Qed.

(** The loop of [BatchGenerateIDs] writes the identifiers of
    [startPosition + i], [startPosition + i + 1], ... from cell [i] on. *)
Lemma fill_ids_spec g startPosition (f : Z → list ascii) rounds :
  ∀ i ids,
  0 <= i → i + Z.of_nat rounds <= len ids →
  (∀ k, i <= k < i + Z.of_nat rounds →
        PositionToID g (add64 startPosition k) = Some (f k)) →
  fill_ids g startPosition rounds i ids
  = Some (take (Z.to_nat i) ids ++ (f <$> seqZ i (Z.of_nat rounds))
          ++ drop (Z.to_nat i + rounds) ids).
Proof.
  induction rounds as [|rounds IH]; intros i ids Hi Hlen Hf.
  - cbn [fill_ids]. rewrite seqZ_nil by lia. cbn [fmap list_fmap app].
    rewrite Nat.add_0_r, take_drop. reflexivity.
  - cbn [fill_ids]. rewrite (Hf i) by lia. cbn [mbind option_bind].
    unfold len in Hlen.
    rewrite store_Some by (unfold len; lia). cbn [mbind option_bind].
    rewrite IH; [|lia|unfold len; rewrite length_insert; lia
                 |intros k Hk; apply Hf; lia].
    f_equal.
    rewrite (seqZ_cons i) by lia. cbn [fmap list_fmap].
    replace (Z.pred (Z.of_nat (S rounds))) with (Z.of_nat rounds) by lia.
    replace (Z.to_nat (i + 1)) with (S (Z.to_nat i)) by lia.
    change (Z.succ i) with (i + 1).
    rewrite (take_S_r _ _ (f i))
      by (apply list_lookup_insert_eq; lia).
    rewrite take_insert_ge, drop_insert_lt by lia.
    rewrite <- app_assoc. cbn [app].
    replace (S (Z.to_nat i) + rounds)%nat with (Z.to_nat i + S rounds)%nat
      by lia.
    reflexivity.
Qed.

Lemma BatchGenerateIDs_encode cfg count startPosition :
  representable cfg → fits_int cfg →
  0 < count → 0 <= startPosition < MaxCombinations (New cfg) →
  startPosition + count <= MaxInt64 →
  BatchGenerateIDs (New cfg) count startPosition
  = Some (encode cfg <$>
            seqZ startPosition
              (Z.min count (MaxCombinations (New cfg) - startPosition))).
Proof.
  intros Hcfg Hfit Hcount Hstart Hsum.
  destruct (MaxCombinations_int64 (New cfg)) as [_ Hmax].
  assert (Hmin : MinInt64 <= 0) by (unfold MinInt64; lia).
  rewrite BatchGenerateIDs_clamped by lia.
  assert (Hclamp : clamped (New cfg) count startPosition
                   = Z.min count (MaxCombinations (New cfg) - startPosition)).
  { unfold clamped, add64, sub64. rewrite !wrap_small by lia.
    case_bool_decide; lia. }
  rewrite Hclamp.
  set (n := Z.min count (MaxCombinations (New cfg) - startPosition)).
  rewrite (fill_ids_spec _ _ (λ k, encode cfg (startPosition + k))).
  - rewrite Z2Nat.id by lia. change (Z.to_nat 0) with O. cbn [take app].
    rewrite drop_replicate, Nat.sub_diag, app_nil_r.
    assert (Hseq : seqZ startPosition n = Z.add startPosition <$> seqZ 0 n)
      by (rewrite fmap_add_seqZ; f_equal; lia).
    rewrite Hseq, <- list_fmap_compose. reflexivity.
  - lia.
  - unfold len. rewrite length_replicate. lia.
  - intros k Hk. unfold add64. rewrite wrap_small by lia.
    apply PositionToID_Some; [exact Hcfg|exact Hfit|lia].
Qed.

(** X1. The sequential batch on a request that does not overflow: with a
    configuration whose [7 ^ just * 12 ^ equal] and identifier length fit
    an [int64], [count > 0], a start position in range and
    [startPosition + count <= MaxInt64], [BatchGenerateIDs] returns
    [min(count, MaxCombinations - startPosition)] identifiers, the [i]-th
    the identifier of position [startPosition + i]; with a distinctive
    separator they decode to these consecutive positions. *)
Theorem BatchGenerateIDs_sequential (cfg : Config.t) (count startPosition : Z) :
  representable cfg → fits_int cfg →
  0 < count → 0 <= startPosition < MaxCombinations (New cfg) →
  startPosition + count <= MaxInt64 →
  ∃ ids,
    BatchGenerateIDs (New cfg) count startPosition = Some ids
    ∧ len ids = Z.min count (MaxCombinations (New cfg) - startPosition)
    ∧ (∀ i : nat, Z.of_nat i < len ids →
         ∃ id, ids !! i = Some id
               ∧ PositionToID (New cfg) (startPosition + Z.of_nat i) = Some id
               ∧ (distinctive (Config.Separator cfg) →
                  IDToPosition (New cfg) id = startPosition + Z.of_nat i)).
Proof.
  intros Hcfg Hfit Hcount Hstart Hsum.
  rewrite BatchGenerateIDs_encode by assumption.
  set (n := Z.min count (MaxCombinations (New cfg) - startPosition)).
  eexists. split; [reflexivity|].
  assert (Hlen : len (encode cfg <$> seqZ startPosition n) = n).
  { unfold len. rewrite length_fmap, length_seqZ. lia. }
  split; [exact Hlen|]. rewrite Hlen. intros i Hi.
  exists (encode cfg (startPosition + Z.of_nat i)).
  rewrite list_lookup_fmap, lookup_seqZ_lt by exact Hi.
  split; [reflexivity|].
  destruct (MaxCombinations_int64 (New cfg)) as [_ Hmax].
  split.
  - apply PositionToID_Some; [exact Hcfg|exact Hfit|lia].
  - intros Hsep. rewrite IDToPosition_encode by (try assumption; lia).
    rewrite <- (MaxCombinations_representable cfg Hcfg).
    apply Z.mod_small. lia.
Qed.

(** With 84 identifiers, a batch of 10 from position 80 has the four
    identifiers of positions 80 to 83. *)
Lemma BatchGenerateIDs_sequential_witness :
  ∃ ids,
    BatchGenerateIDs g11 10 80 = Some ids
    ∧ len ids = 4
    ∧ (∀ i : nat, Z.of_nat i < len ids →
         ∃ id, ids !! i = Some id
               ∧ PositionToID g11 (80 + Z.of_nat i) = Some id
               ∧ (distinctive (str "-") →
                  IDToPosition g11 id = 80 + Z.of_nat i)).
Proof.
  apply (BatchGenerateIDs_sequential (config 1 1 "-") 10 80).
  - unfold representable, MaxInt64. simpl. lia.
  - vm_compute. discriminate.
  - lia.
  - vm_compute. split; [discriminate|reflexivity].
  - unfold MaxInt64. lia.
Defined.

(** Every call of [PositionToID] on the generator [g11] returns. *)
Lemma PositionToID_g11_total position :
  int64 position → is_Some (PositionToID g11 position).
Proof.
  intros [_ Hmax]. destruct (decide (position < 0)) as [Hneg|Hpos].
  - unfold PositionToID. rewrite bool_decide_eq_true_2 by exact Hneg.
    eexists. reflexivity.
  - unfold g11. rewrite PositionToID_Some; [eexists; reflexivity| | |lia].
    + unfold representable, MaxInt64. simpl. lia.
    + vm_compute. discriminate.
Qed.

(** C4 fails on the code for a count near [MaxInt64]: in
    [BatchGenerateIDs(9223372036854775807, 1)] the sum
    [startPosition + count] wraps to [MinInt64], the test
    [startPosition + count > maxCombinations] is false, the count is not
    limited to the 83 positions left, and the loop runs for
    [9223372036854775807] identifiers. *)
Theorem BatchGenerateIDs_count_overflow :
  MaxCombinations g11 = 84
  ∧ add64 1 MaxInt64 = MinInt64
  ∧ clamped g11 MaxInt64 1 = MaxInt64
  ∧ ∃ ids, BatchGenerateIDs g11 MaxInt64 1 = Some ids ∧ len ids = MaxInt64.
Proof.
  assert (Hclamp : clamped g11 MaxInt64 1 = MaxInt64)
    by (vm_compute; reflexivity).
  split; [vm_compute; reflexivity|].
  split; [vm_compute; reflexivity|].
  split; [exact Hclamp|].
  assert (Hmax : 0 < MaxInt64) by (unfold MaxInt64; lia).
  rewrite BatchGenerateIDs_clamped; [|exact Hmax|vm_compute; split; congruence].
  rewrite Hclamp.
  rewrite (fill_ids_spec _ _ (λ k, default [] (PositionToID g11 (add64 1 k)))).
  - eexists. split; [reflexivity|]. unfold len.
    rewrite !length_app, length_fmap, length_seqZ, length_take, length_drop,
      length_replicate.
    lia.
  - lia.
  - unfold len. rewrite length_replicate. lia.
  - intros k _.
    destruct (PositionToID_g11_total (add64 1 k) (wrap_range _)) as [id ->].
    reflexivity.
Qed.

(** ** Sampling without replacement *)

Lemma fill_identity_spec rounds : ∀ i positions,
  0 <= i → i + Z.of_nat rounds <= len positions →
  fill_identity rounds i positions
  = Some (take (Z.to_nat i) positions ++ seqZ i (Z.of_nat rounds)
          ++ drop (Z.to_nat i + rounds) positions).
Proof.
  induction rounds as [|rounds IH]; intros i positions Hi Hlen.
  - cbn [fill_identity]. rewrite seqZ_nil by lia. cbn [app].
    rewrite Nat.add_0_r, take_drop. reflexivity.
  - cbn [fill_identity]. unfold len in Hlen.
    rewrite store_Some by (unfold len; lia). cbn [mbind option_bind].
    rewrite IH; [|lia|unfold len; rewrite length_insert; lia].
    f_equal. rewrite (seqZ_cons i) by lia.
    replace (Z.pred (Z.of_nat (S rounds))) with (Z.of_nat rounds) by lia.
    replace (Z.to_nat (i + 1)) with (S (Z.to_nat i)) by lia.
    change (Z.succ i) with (i + 1).
    rewrite (take_S_r _ _ i) by (apply list_lookup_insert_eq; lia).
    rewrite take_insert_ge, drop_insert_lt by lia.
    rewrite <- app_assoc. cbn [app].
    replace (S (Z.to_nat i) + rounds)%nat with (Z.to_nat i + S rounds)%nat
      by lia.
    reflexivity.
Qed.

Lemma fill_identity_fresh max :
  0 <= max →
  fill_identity (Z.to_nat max) 0 (replicate (Z.to_nat max) 0)
  = Some (seqZ 0 max).
Proof.
  intros Hmax.
  rewrite fill_identity_spec;
    [|lia|unfold len; rewrite length_replicate; lia].
  change (Z.to_nat 0) with O. cbn [take app].
  rewrite drop_replicate, Nat.sub_diag, app_nil_r, Z2Nat.id by lia.
  reflexivity.
Qed.

Lemma at_index_Some {A} (table : list A) i :
  0 <= i < len table → ∃ x, at_index table i = Some x
                            ∧ table !! Z.to_nat i = Some x.
Proof.
  intros Hi. unfold at_index, len in *.
  rewrite bool_decide_eq_false_2 by lia.
  destruct (lookup_lt_is_Some_2 table (Z.to_nat i)) as [x Hx]; [lia|].
  exists x. split; exact Hx.
Qed.

Section Sampling.
Context {Rand : Type} (Intn : Rand → Z → Z * Rand).

(** The contract of [Intn]: a number in [[0, n)]. *)
Hypothesis Intn_range : ∀ r n, 0 < n → 0 <= (Intn r n).1 < n.

(** The Fisher-Yates loop returns, with a permutation of the slice. *)
Lemma shuffle_permutation i : ∀ positions r,
  (i < length positions)%nat →
  ∃ positions' r',
    shuffle Intn i positions r = Returns (positions', r')
    ∧ positions' ≡ₚ positions.
Proof.
  induction i as [|i IH]; intros positions r Hi.
  - exists positions, r. split; reflexivity.
  - cbn [shuffle]. unfold draw.
    rewrite bool_decide_eq_false_2 by lia.
    pose proof (Intn_range r (Z.of_nat (S i) + 1) ltac:(lia)) as Hj.
    destruct (Intn r (Z.of_nat (S i) + 1)) as [j r1]. cbn in Hj.
    cbn [mbind outcome_mbind outcome_bind].
    destruct (at_index_Some positions (Z.of_nat (S i)))
      as (pi & -> & Hpi); [unfold len; lia|].
    destruct (at_index_Some positions j) as (pj & -> & Hpj);
      [unfold len; lia|].
    outcome_step.
    rewrite store_Some by (unfold len; lia). outcome_step.
    rewrite store_Some by (unfold len; rewrite length_insert; lia).
    outcome_step.
    rewrite Nat2Z.id in *.
    destruct (IH (<[Z.to_nat j := pi]> (<[S i := pj]> positions)) r1)
      as (positions' & r' & -> & Hperm);
      [rewrite !length_insert; lia|].
    exists positions', r'. split; [reflexivity|].
    rewrite Hperm. apply Permutation_insert_swap; assumption.
Qed.

(** Once the draws to come hold enough distinct numbers, the rejection
    loop returns within that many draws, with [count] distinct positions
    in range. *)
Lemma reject_returns max count fuel : ∀ used positions r,
  0 < max →
  reject_invariant max count used positions →
  count <= Z.of_nat
             (size (list_to_set (positions ++ draws Intn fuel max r)
                    : gset Z)) →
  ∃ sample r',
    reject Intn fuel max count used positions r = Returns (sample, r')
    ∧ len sample = count ∧ NoDup sample
    ∧ (∀ p, p ∈ sample → 0 <= p < max).
Proof.
  induction fuel as [|fuel IH];
    intros used positions r Hmax (Hused & Hnd & Hrange & Hlen) Hdist.
  - cbn [draws] in Hdist. rewrite app_nil_r in Hdist.
    rewrite size_list_to_set in Hdist by exact Hnd.
    cbn [reject]. rewrite bool_decide_eq_false_2 by (unfold len in *; lia).
    exists positions, r. unfold len in *.
    split; [reflexivity|]. split; [lia|]. split; assumption.
  - cbn [reject]. case_bool_decide as Hmore.
    2:{ exists positions, r.
        split; [reflexivity|]. split; [lia|]. split; assumption. }
    unfold draw. rewrite bool_decide_eq_false_2 by lia.
    cbn [draws] in Hdist.
    pose proof (Intn_range r max Hmax) as Hpos.
    destruct (Intn r max) as [pos r1]. cbn [fst snd] in *.
    cbn [mbind outcome_mbind outcome_bind].
    destruct (default false (used !! pos)) eqn:Hseen; cbn [negb].
    + apply Hused in Hseen.
      apply IH;
        [exact Hmax|exact (conj Hused (conj Hnd (conj Hrange Hlen)))|].
      replace (list_to_set (positions ++ draws Intn fuel max r1) : gset Z)
        with (list_to_set (positions ++ pos :: draws Intn fuel max r1)
              : gset Z); [exact Hdist|].
      apply set_eq. intros x.
      rewrite !elem_of_list_to_set, !elem_of_app, elem_of_cons.
      split; [intros [?|[->|?]]|intros [?|?]]; auto.
    + assert (Hfresh : pos ∉ positions).
      { intros Hin. apply Hused in Hin. congruence. }
      apply IH; [exact Hmax| |rewrite <- app_assoc; exact Hdist].
      split; [|split; [|split]].
      * intros p. rewrite elem_of_app, list_elem_of_singleton, <- Hused.
        destruct (decide (p = pos)) as [->|Hne].
        -- rewrite lookup_insert_eq. cbn. tauto.
        -- rewrite lookup_insert_ne by congruence. tauto.
      * apply NoDup_app. split; [exact Hnd|]. split; [|apply NoDup_singleton].
        intros p Hp ->%list_elem_of_singleton. exact (Hfresh Hp).
      * intros p [Hp| ->%list_elem_of_singleton]%elem_of_app;
          [exact (Hrange p Hp)|exact Hpos].
      * unfold len in *. rewrite length_app. simpl. lia.
Qed.

(** Whatever the stream, what the rejection loop returns is [count]
    distinct positions in range. *)
Lemma reject_partial max count fuel : ∀ used positions r sample r',
  0 < max →
  reject_invariant max count used positions →
  reject Intn fuel max count used positions r = Returns (sample, r') →
  len sample = count ∧ NoDup sample ∧ (∀ p, p ∈ sample → 0 <= p < max).
Proof.
  assert (Hexit : ∀ used positions (r : Rand) sample (r' : Rand),
    reject_invariant max count used positions →
    ¬ len positions < count →
    Returns (positions, r) = Returns (sample, r') →
    len sample = count ∧ NoDup sample ∧ (∀ p, p ∈ sample → 0 <= p < max)).
  { intros used positions r sample r' (_ & Hnd & Hrange & Hlen) Hdone
      [= <- <-].
    split; [lia|]. split; assumption. }
  induction fuel as [|fuel IH]; intros used positions r sample r' Hmax Hinv;
    cbn [reject]; case_bool_decide as Hmore; try discriminate;
    try (apply (Hexit used); assumption).
  unfold draw. rewrite bool_decide_eq_false_2 by lia.
  pose proof (Intn_range r max Hmax) as Hpos.
  destruct (Intn r max) as [pos r1]. cbn [fst snd] in *. outcome_step.
  destruct Hinv as (Hused & Hnd & Hrange & Hlen).
  destruct (default false (used !! pos)) eqn:Hseen; cbn [negb].
  - apply IH; [exact Hmax|]. exact (conj Hused (conj Hnd (conj Hrange Hlen))).
  - assert (Hfresh : pos ∉ positions).
    { intros Hin. apply Hused in Hin. congruence. }
    apply IH; [exact Hmax|].
    split; [|split; [|split]].
    * intros p. rewrite elem_of_app, list_elem_of_singleton, <- Hused.
      destruct (decide (p = pos)) as [->|Hne].
      -- rewrite lookup_insert_eq. cbn. tauto.
      -- rewrite lookup_insert_ne by congruence. tauto.
    * apply NoDup_app. split; [exact Hnd|]. split; [|apply NoDup_singleton].
      intros p Hp ->%list_elem_of_singleton. exact (Hfresh Hp).
    * intros p [Hp| ->%list_elem_of_singleton]%elem_of_app;
        [exact (Hrange p Hp)|exact Hpos].
    * unfold len in *. rewrite length_app. simpl. lia.
Qed.

Lemma reject_invariant_start max count :
  0 <= count → reject_invariant max count ∅ [].
Proof.
  intros Hcount. split; [|split; [|split]].
  - intros p. rewrite lookup_empty. cbn. split; [discriminate|inversion 1].
  - constructor.
  - inversion 1.
  - exact Hcount.
Qed.

(** The full shuffle: a permutation of [[0, max)]. *)
Lemma randomSample_all fuel r max :
  0 < max →
  ∃ sample r',
    randomSample Intn fuel r max max = Returns (sample, r')
    ∧ sample ≡ₚ seqZ 0 max.
Proof.
  intros Hmax. unfold randomSample.
  rewrite bool_decide_eq_true_2 by lia.
  rewrite make_nonneg by lia. outcome_step.
  rewrite fill_identity_fresh by lia. outcome_step.
  destruct (shuffle_permutation (Z.to_nat (max - 1)) (seqZ 0 max) r)
    as (positions & r' & -> & Hperm); [rewrite length_seqZ; lia|].
  outcome_step.
  assert (Hlen : length positions = Z.to_nat max)
    by (rewrite Hperm; apply length_seqZ).
  unfold slice_to, len. rewrite bool_decide_eq_true_2 by lia. outcome_step.
  rewrite take_ge by lia.
  exists positions, r'. split; [reflexivity|exact Hperm].
Qed.

(** What [randomSample] returns, whenever it returns. *)
Lemma randomSample_partial fuel r max count sample r' :
  0 < count <= max →
  randomSample Intn fuel r max count = Returns (sample, r') →
  len sample = count ∧ NoDup sample ∧ (∀ p, p ∈ sample → 0 <= p < max)
  ∧ (count = max → ∀ p, 0 <= p < max → p ∈ sample).
Proof.
  intros Hcount Hsample.
  destruct (decide (count = max)) as [->|Hless].
  - destruct (randomSample_all fuel r max ltac:(lia))
      as (sample1 & r1 & Hall & Hperm).
    rewrite Hall in Hsample. injection Hsample as <- <-.
    split; [|split; [|split]].
    + unfold len. rewrite Hperm, length_seqZ. lia.
    + rewrite Hperm. apply NoDup_seqZ.
    + intros p. rewrite Hperm, elem_of_seqZ. lia.
    + intros _ p Hp. rewrite Hperm, elem_of_seqZ. lia.
  - unfold randomSample in Hsample.
    rewrite bool_decide_eq_false_2 in Hsample by lia.
    rewrite make_cap_nonneg in Hsample by lia.
    cbn [mbind outcome_mbind outcome_bind lift] in Hsample.
    apply reject_partial in Hsample;
      [|lia|apply reject_invariant_start; lia].
    destruct Hsample as (Hlen & Hnd & Hrange).
    repeat (split; [assumption|]). intros ->. congruence.
Qed.

(** [randomSample] returns for a full sample, and for a smaller one once
    the stream yields enough distinct numbers. *)
Lemma randomSample_returns r max count :
  0 < count <= max →
  count = max ∨ yields_distinct Intn r max count →
  ∃ fuel sample r', randomSample Intn fuel r max count = Returns (sample, r').
Proof.
  intros Hcount Hyields.
  destruct (decide (count = max)) as [->|Hless].
  - destruct (randomSample_all O r max ltac:(lia)) as (sample & r' & Hall & _).
    exists O, sample, r'. exact Hall.
  - destruct Hyields as [->|[n Hn]]; [congruence|].
    destruct (reject_returns max count n ∅ [] r ltac:(lia)
                (reject_invariant_start max count ltac:(lia)) Hn)
      as (sample & r' & Hreject & _).
    exists n, sample, r'. unfold randomSample.
    rewrite bool_decide_eq_false_2 by lia.
    rewrite make_cap_nonneg by lia. outcome_step. exact Hreject.
Qed.

End Sampling.

(** The loop of [BatchGenerateRandomIDs] writes the identifiers of the
    positions from cell [i] on. *)
Lemma assign_ids_spec g (f : Z → list ascii) positions : ∀ i ids,
  0 <= i → i + len positions <= len ids →
  (∀ p, p ∈ positions → PositionToID g p = Some (f p)) →
  assign_ids g positions i ids
  = Some (take (Z.to_nat i) ids ++ (f <$> positions)
          ++ drop (Z.to_nat i + length positions) ids).
Proof.
  induction positions as [|pos positions IH]; intros i ids Hi Hlen Hf.
  - cbn [assign_ids fmap list_fmap app length].
    rewrite Nat.add_0_r, take_drop. reflexivity.
  - cbn [assign_ids]. rewrite (Hf pos) by left. cbn [mbind option_bind].
    unfold len in Hlen. cbn [length] in Hlen.
    rewrite store_Some by (unfold len; lia). cbn [mbind option_bind].
    rewrite IH; [|lia|unfold len; rewrite length_insert; lia
                 |intros p Hp; apply Hf; right; exact Hp].
    f_equal. cbn [fmap list_fmap length].
    replace (Z.to_nat (i + 1)) with (S (Z.to_nat i)) by lia.
    rewrite (take_S_r _ _ (f pos)) by (apply list_lookup_insert_eq; lia).
    rewrite take_insert_ge, drop_insert_lt by lia.
    rewrite <- app_assoc. cbn [app].
    replace (S (Z.to_nat i) + length positions)%nat
      with (Z.to_nat i + S (length positions))%nat by lia.
    reflexivity.
Qed.

Lemma decode_encode_list cfg (positions : list Z) :
  representable cfg → distinctive (Config.Separator cfg) →
  (∀ p, p ∈ positions → 0 <= p < MaxCombinations (New cfg)) →
  IDToPosition (New cfg) <$> (encode cfg <$> positions) = positions.
Proof.
  intros Hcfg Hsep Hrange.
  rewrite <- list_fmap_compose. rewrite <- (list_fmap_id positions) at 2.
  apply list_fmap_ext. intros _ p Hp%list_elem_of_lookup_2.
  specialize (Hrange p Hp). cbn.
  destruct (MaxCombinations_int64 (New cfg)) as [_ Hmax].
  rewrite IDToPosition_encode by (try assumption; lia).
  rewrite <- (MaxCombinations_representable cfg Hcfg).
  apply Z.mod_small. exact Hrange.
Qed.

Section UniqueBatch.
Context {Rand : Type} (Intn : Rand → Z → Z * Rand).
Hypothesis Intn_range : ∀ r n, 0 < n → 0 <= (Intn r n).1 < n.
Context (cfg : Config.t).
Hypothesis Hcfg : representable cfg.
Hypothesis Hfit : fits_int cfg.

(** The batch is the identifiers of the sample, in its order. *)
Lemma BatchGenerateRandomIDs_sample fuel r count :
  0 < count <= MaxCombinations (New cfg) →
  BatchGenerateRandomIDs Intn fuel (New cfg) r count
  = match randomSample Intn fuel r (MaxCombinations (New cfg)) count with
    | Returns (positions, r') => Returns (encode cfg <$> positions, r')
    | Panics => Panics
    | Running => Running
    end.
Proof.
  intros Hcount. unfold BatchGenerateRandomIDs.
  rewrite !bool_decide_eq_false_2 by lia.
  destruct (randomSample Intn fuel r (MaxCombinations (New cfg)) count)
    as [[positions r1]| |] eqn:Hsample; [|reflexivity|reflexivity].
  apply (randomSample_partial Intn Intn_range) in Hsample
    as (Hlen & _ & Hrange & _); [|exact Hcount].
  outcome_step. rewrite make_nonneg by lia. outcome_step.
  destruct (MaxCombinations_int64 (New cfg)) as [_ Hmax].
  rewrite (assign_ids_spec _ (encode cfg)).
  - outcome_step. change (Z.to_nat 0) with O. cbn [take app].
    rewrite drop_replicate.
    replace (Z.to_nat count - (0 + length positions))%nat with O
      by (unfold len in Hlen; lia).
    cbn [replicate]. rewrite app_nil_r. reflexivity.
  - lia.
  - unfold len in *. rewrite length_replicate. lia.
  - intros p Hp. specialize (Hrange p Hp).
    apply PositionToID_Some; [exact Hcfg|exact Hfit|lia].
Qed.

Lemma BatchGenerateRandomIDs_partial fuel r count ids r' :
  distinctive (Config.Separator cfg) →
  0 < count <= MaxCombinations (New cfg) →
  BatchGenerateRandomIDs Intn fuel (New cfg) r count = Returns (ids, r') →
  unique_batch (New cfg) count ids.
Proof.
  intros Hsep Hcount. rewrite BatchGenerateRandomIDs_sample by exact Hcount.
  destruct (randomSample Intn fuel r (MaxCombinations (New cfg)) count)
    as [[positions r1]| |] eqn:Hsample; try discriminate.
  outcome_step. intros [= <- <-].
  apply (randomSample_partial Intn Intn_range) in Hsample
    as (Hlen & Hnd & Hrange & Hall); [|exact Hcount].
  pose proof (decode_encode_list cfg positions Hcfg Hsep Hrange) as Hdecode.
  unfold unique_batch. rewrite Hdecode.
  split; [unfold len in *; rewrite length_fmap; exact Hlen|].
  split; [apply (NoDup_fmap_1 (IDToPosition (New cfg)));
          rewrite Hdecode; exact Hnd|].
  split; [exact Hnd|]. split; [|exact Hall].
  intros id (p & -> & Hp)%list_elem_of_fmap.
  specialize (Hrange p Hp).
  destruct (MaxCombinations_int64 (New cfg)) as [_ Hmax].
  rewrite IDToPosition_encode by (try assumption; lia).
  rewrite <- (MaxCombinations_representable cfg Hcfg).
  rewrite Z.mod_small by exact Hrange. exact Hrange.
Qed.

Lemma BatchGenerateRandomIDs_returns r count :
  0 < count <= MaxCombinations (New cfg) →
  count = MaxCombinations (New cfg)
  ∨ yields_distinct Intn r (MaxCombinations (New cfg)) count →
  ∃ fuel ids r',
    BatchGenerateRandomIDs Intn fuel (New cfg) r count = Returns (ids, r').
Proof.
  intros Hcount Hyields.
  destruct (randomSample_returns Intn Intn_range r _ count Hcount Hyields)
    as (fuel & sample & r' & Hsample).
  exists fuel, (encode cfg <$> sample), r'.
  rewrite BatchGenerateRandomIDs_sample, Hsample by exact Hcount.
  reflexivity.
Qed.

End UniqueBatch.

(** X16. For a configuration whose [7 ^ just * 12 ^ equal] and identifier
    length fit an [int64] and whose separator is distinctive, every
    [count] with [0 < count <= MaxCombinations] and every state of the
    random stream: whenever [BatchGenerateRandomIDs] returns, it returns
    exactly [count] identifiers, pairwise distinct, that decode to [count]
    pairwise distinct positions in range, all the positions when [count]
    is [MaxCombinations]; and it returns when [count] is
    [MaxCombinations], or when the stream yields [count] distinct numbers
    within finitely many draws. *)
Theorem BatchGenerateRandomIDs_unique {Rand : Type}
    (Intn : Rand → Z → Z * Rand) (cfg : Config.t) (r : Rand) (count : Z) :
  (∀ r n, 0 < n → 0 <= (Intn r n).1 < n) →
  representable cfg → fits_int cfg → distinctive (Config.Separator cfg) →
  0 < count <= MaxCombinations (New cfg) →
  (∀ fuel ids r',
     BatchGenerateRandomIDs Intn fuel (New cfg) r count = Returns (ids, r') →
     unique_batch (New cfg) count ids)
  ∧ (count = MaxCombinations (New cfg)
     ∨ yields_distinct Intn r (MaxCombinations (New cfg)) count →
     ∃ fuel ids r',
       BatchGenerateRandomIDs Intn fuel (New cfg) r count
       = Returns (ids, r')).
Proof.
  intros Hrange Hcfg Hfit Hsep Hcount. split.
  - intros fuel ids r'.
    apply (BatchGenerateRandomIDs_partial Intn Hrange cfg Hcfg Hfit);
      assumption.
  - apply (BatchGenerateRandomIDs_returns Intn Hrange cfg Hcfg Hfit).
    exact Hcount.
Qed.

Lemma counting_range (r : nat) n : 0 < n → 0 <= (counting r n).1 < n.
Proof. intros Hn. cbn. apply Z.mod_pos_bound. exact Hn. Qed.

(** From state 5 the counting stream draws 5, 6 and 7: a batch of three
    identifiers returns, and it is a unique batch. *)
Lemma BatchGenerateRandomIDs_unique_witness :
  ∃ fuel ids r',
    BatchGenerateRandomIDs counting fuel g11 5%nat 3 = Returns (ids, r')
    ∧ unique_batch g11 3 ids.
Proof.
  destruct (BatchGenerateRandomIDs_unique counting (config 1 1 "-") 5%nat 3)
    as [Hsafe Hlive].
  - exact counting_range.
  - unfold representable, MaxInt64. simpl. lia.
  - vm_compute. discriminate.
  - exists "-"%char. split; apply (bool_decide_unpack _); vm_compute; exact I.
  - vm_compute. split; [reflexivity|discriminate].
  - destruct Hlive as (fuel & ids & r' & Hids).
    + right. exists 3%nat. vm_compute. discriminate.
    + exists fuel, ids, r'. split; [exact Hids|].
      exact (Hsafe fuel ids r' Hids).
Defined.

(** * Further properties of the code *)

(** ** [intPow] and the lookup tables *)

(** X2. For every base and every exponent in [[0, MaxInt64]], [intPow]
    returns [base ^ exp] wrapped to 64 bits, whatever the intermediate
    squarings overflow to; so it is exactly [base ^ exp] whenever that is
    an [int64]. A negative exponent gives 1. *)
Theorem intPow_power (base exp : Z) :
  int64 exp →
  (exp < 0 → intPow base exp = 1)
  ∧ (0 <= exp → intPow base exp = wrap (base ^ exp))
  ∧ (0 <= exp → int64 (base ^ exp) → intPow base exp = base ^ exp).
Proof.
  intros [_ Hexp]. split; [|split].
  - intros Hneg. apply intPow_nonpos. lia.
  - intros Hpos. apply intPow_wrap. lia.
  - intros Hpos Hfit. rewrite intPow_wrap by lia. apply wrap_small. exact Hfit.
Qed.

(** [(-3) ^ 39] fits 64 bits although the last squaring of the base,
    [3 ^ 64], does not. *)
Lemma intPow_power_witness : intPow (-3) 39 = -4052555153018976267.
Proof.
  destruct (intPow_power (-3) 39) as (_ & _ & Hexact).
  - unfold int64, MinInt64, MaxInt64. lia.
  - rewrite Hexact; [reflexivity|lia|].
    unfold int64, MinInt64, MaxInt64. vm_compute. split; discriminate.
Defined.

(** X3. The two maps [New] builds are the inverses of the two alphabets:
    a key is mapped to [i] exactly when it is the [i]-th note name (the
    [i]-th character), and every other key is missing. *)
Theorem New_lookup_tables (cfg : Config.t) :
  (∀ (k : list ascii) (i : Z),
     justIntonationMap (New cfg) !! k = Some i
     ↔ 0 <= i ∧ justIntonationBytes (New cfg) !! Z.to_nat i = Some k)
  ∧ (∀ (c : ascii) (i : Z),
       equalTemperamentMap (New cfg) !! c = Some i
       ↔ 0 <= i ∧ equalTemperamentBytes (New cfg) !! Z.to_nat i = Some c).
Proof.
  split; intros k i; split.
  - intros Hk. apply justIntonationMap_entry in Hk as [Hi ->].
    split; [lia|]. apply noteNames_lookup. exact Hi.
  - intros [Hi Hk]. cbn [New justIntonationBytes] in Hk.
    pose proof (lookup_lt_Some _ _ _ Hk) as Hlt. simpl in Hlt.
    assert (Hrange : 0 <= i < 7) by lia.
    rewrite (noteNames_lookup i Hrange) in Hk. injection Hk as <-.
    apply justIntonationMap_note. exact Hrange.
  - intros Hk. apply equalTemperamentMap_entry in Hk as [Hi ->].
    split; [lia|]. apply charNames_lookup. exact Hi.
  - intros [Hi Hk]. cbn [New equalTemperamentBytes] in Hk.
    pose proof (lookup_lt_Some _ _ _ Hk) as Hlt. simpl in Hlt.
    assert (Hrange : 0 <= i < 12) by lia.
    rewrite (charNames_lookup i Hrange) in Hk. injection Hk as <-.
    apply equalTemperamentMap_char. exact Hrange.
Qed.

(** ** Digits, again *)

Lemma from_digits_snoc radix digits d acc :
  from_digits radix (digits ++ [d]) acc
  = from_digits radix digits acc * radix + d.
Proof. rewrite from_digits_app. reflexivity. Qed.

(** The digits of a Horner value are the digits it was made of. *)
Lemma to_from_digits radix digits : ∀ acc,
  0 < radix → Forall (λ d, 0 <= d < radix) digits →
  to_digits (length digits) radix (from_digits radix digits acc) = digits.
Proof.
  induction digits as [|d digits IH] using rev_ind; intros acc Hr Hd;
    [reflexivity|].
  apply Forall_app in Hd as [Hd Hlast]. inversion Hlast as [|? ? Hd1 _]; subst.
  rewrite length_app, Nat.add_1_r, from_digits_snoc. cbn [to_digits].
  rewrite Z.div_add_l by lia. rewrite (Z.div_small d) by lia.
  rewrite Z.add_0_r, IH by assumption. f_equal. f_equal.
  rewrite Z.add_comm, Z_mod_plus_full. apply Z.mod_small. exact Hd1.
Qed.

Lemma from_digits_bound radix digits : ∀ acc,
  0 < radix → 0 <= acc → Forall (λ d, 0 <= d < radix) digits →
  acc * radix ^ Z.of_nat (length digits)
  <= from_digits radix digits acc
  < (acc + 1) * radix ^ Z.of_nat (length digits).
Proof.
  induction digits as [|d digits IH]; intros acc Hr Hacc Hd.
  - simpl. lia.
  - inversion Hd as [|? ? Hd1 Hd2]; subst. cbn [from_digits length].
    rewrite Nat2Z.inj_succ, Z.pow_succ_r by lia.
    specialize (IH (acc * radix + d) Hr ltac:(nia) Hd2).
    assert (0 < radix ^ Z.of_nat (length digits))
      by (apply Z.pow_pos_nonneg; lia).
    nia.
Qed.

(** The identifier made of given digits is the identifier of the position
    these digits denote. *)
Lemma encode_of_digits cfg (justDigits equalDigits : list Z) :
  representable cfg →
  length justDigits = Z.to_nat (Config.JustIntonationDigits cfg) →
  length equalDigits = Z.to_nat (Config.EqualTemperamentDigits cfg) →
  Forall (λ d, 0 <= d < 7) justDigits →
  Forall (λ d, 0 <= d < 12) equalDigits →
  let position :=
    from_digits 7 justDigits 0 * 12 ^ Config.EqualTemperamentDigits cfg
    + from_digits 12 equalDigits 0 in
  0 <= position < MaxCombinations (New cfg)
  ∧ encode cfg position
    = concat (note <$> justDigits) ++ Config.Separator cfg
      ++ (char <$> equalDigits).
Proof.
  intros Hcfg Hlj Hle Hjd Hed position.
  rewrite (MaxCombinations_representable cfg Hcfg).
  destruct (representable_pows cfg Hcfg) as (H7 & H12 & Hj & He).
  cbv zeta in *.
  set (just := Config.JustIntonationDigits cfg) in *.
  set (equal := Config.EqualTemperamentDigits cfg) in *.
  pose proof (from_digits_bound 7 justDigits 0 ltac:(lia) ltac:(lia) Hjd)
    as Hjb.
  pose proof (from_digits_bound 12 equalDigits 0 ltac:(lia) ltac:(lia) Hed)
    as Heb.
  rewrite Hlj in Hjb. rewrite Hle in Heb. rewrite !Z2Nat.id in * by lia.
  split; [subst position; nia|].
  unfold encode. fold just equal.
  assert (Hdiv : position / 12 ^ equal = from_digits 7 justDigits 0).
  { subst position. rewrite Z.div_add_l by lia.
    rewrite (Z.div_small (from_digits 12 equalDigits 0)) by lia. lia. }
  assert (Hmod : position mod 12 ^ equal = from_digits 12 equalDigits 0).
  { subst position. rewrite Z.add_comm, Z_mod_plus_full.
    apply Z.mod_small. lia. }
  rewrite Hdiv, Hmod, <- Hlj, <- Hle.
  rewrite !to_from_digits by (try assumption; lia). reflexivity.
Qed.

(** ** Single random identifiers *)

Section NewIDProperties.
Context {Rand : Type} (Intn : Rand → Z → Z * Rand).
Hypothesis Intn_range : ∀ r n, 0 < n → 0 <= (Intn r n).1 < n.
Context (cfg : Config.t).

Lemma draw_notes_digits rounds : ∀ result r,
  ∃ digits r',
    draw_notes Intn rounds (New cfg) result r
    = Returns (result ++ concat (note <$> digits), r')
    ∧ length digits = rounds ∧ Forall (λ d, 0 <= d < 7) digits.
Proof.
  induction rounds as [|rounds IH]; intros result r.
  - exists [], r. cbn. rewrite app_nil_r. repeat split. constructor.
  - cbn [draw_notes]. rewrite New_justIntonationLen. unfold draw.
    rewrite bool_decide_eq_false_2 by lia.
    pose proof (Intn_range r 7 ltac:(lia)) as Hj.
    destruct (Intn r 7) as [j r1]. cbn [fst] in Hj. outcome_step.
    cbn [New justIntonationBytes].
    rewrite at_index_note by exact Hj. outcome_step.
    destruct (IH (result ++ note j) r1) as (digits & r' & -> & Hlen & Hd).
    exists (j :: digits), r'. cbn [fmap list_fmap concat length].
    rewrite <- app_assoc. repeat split; [congruence|].
    constructor; assumption.
Qed.

Lemma draw_chars_digits rounds : ∀ result r,
  ∃ digits r',
    draw_chars Intn rounds (New cfg) result r
    = Returns (result ++ (char <$> digits), r')
    ∧ length digits = rounds ∧ Forall (λ d, 0 <= d < 12) digits.
Proof.
  induction rounds as [|rounds IH]; intros result r.
  - exists [], r. cbn. rewrite app_nil_r. repeat split. constructor.
  - cbn [draw_chars]. rewrite New_equalTemperamentLen. unfold draw.
    rewrite bool_decide_eq_false_2 by lia.
    pose proof (Intn_range r 12 ltac:(lia)) as Hj.
    destruct (Intn r 12) as [j r1]. cbn [fst] in Hj. outcome_step.
    cbn [New equalTemperamentBytes].
    rewrite at_index_char by exact Hj. outcome_step.
    destruct (IH (result ++ [char j]) r1) as (digits & r' & -> & Hlen & Hd).
    exists (j :: digits), r'. cbn [fmap list_fmap length].
    rewrite <- app_assoc. repeat split; [congruence|].
    constructor; assumption.
Qed.

(** What [NewID] returns once its capacity is not negative: the symbols of
    as many random digits as the two counts ask for, a negative count
    asking for none. *)
Lemma NewID_digits r :
  ¬ capacity cfg < 0 →
  ∃ justDigits equalDigits r',
    NewID Intn (New cfg) r
    = Returns (concat (note <$> justDigits) ++ Config.Separator cfg
               ++ (char <$> equalDigits), r')
    ∧ length justDigits = Z.to_nat (Config.JustIntonationDigits cfg)
    ∧ length equalDigits = Z.to_nat (Config.EqualTemperamentDigits cfg)
    ∧ Forall (λ d, 0 <= d < 7) justDigits
    ∧ Forall (λ d, 0 <= d < 12) equalDigits.
Proof.
  intros Hcap. unfold NewID.
  change (add64 _ (EqualTemperamentDigits (New cfg))) with (capacity cfg).
  unfold make_cap. rewrite bool_decide_eq_false_2 by exact Hcap.
  outcome_step. cbn [New JustIntonationDigits EqualTemperamentDigits Separator].
  destruct (draw_notes_digits (Z.to_nat (Config.JustIntonationDigits cfg)) [] r)
    as (justDigits & r1 & Hnotes & Hlj & Hjd).
  rewrite Hnotes. outcome_step.
  destruct (draw_chars_digits (Z.to_nat (Config.EqualTemperamentDigits cfg))
              (([] ++ concat (note <$> justDigits)) ++ Config.Separator cfg) r1)
    as (equalDigits & r' & Hchars & Hle & Hed).
  rewrite Hchars. exists justDigits, equalDigits, r'.
  cbn [app]. rewrite <- app_assoc. repeat split; assumption.
Qed.

End NewIDProperties.

(** X4. For a configuration whose [7 ^ just * 12 ^ equal] and identifier
    length fit an [int64], and every state of the random stream, [NewID]
    returns, and what it returns is the identifier [PositionToID] gives
    for some position in [[0, MaxCombinations)]; with a distinctive
    separator [IDToPosition] maps it back to that position. *)
Theorem NewID_valid {Rand : Type} (Intn : Rand → Z → Z * Rand)
    (cfg : Config.t) (r : Rand) :
  (∀ r n, 0 < n → 0 <= (Intn r n).1 < n) →
  representable cfg → fits_int cfg →
  ∃ id r' position,
    NewID Intn (New cfg) r = Returns (id, r')
    ∧ 0 <= position < MaxCombinations (New cfg)
    ∧ PositionToID (New cfg) position = Some id
    ∧ (distinctive (Config.Separator cfg) →
       IDToPosition (New cfg) id = position).
Proof.
  intros Hrange Hcfg Hfit.
  destruct (NewID_digits Intn Hrange cfg r (capacity_fits cfg Hcfg Hfit))
    as (justDigits & equalDigits & r' & Hid & Hlj & Hle & Hjd & Hed).
  destruct (encode_of_digits cfg justDigits equalDigits Hcfg Hlj Hle Hjd Hed)
    as [Hpos Henc].
  destruct (MaxCombinations_int64 (New cfg)) as [_ Hmax].
  eexists _, r', _. split; [exact Hid|]. split; [exact Hpos|].
  rewrite <- Henc. split.
  - apply PositionToID_Some; [exact Hcfg|exact Hfit|lia].
  - intros Hsep. rewrite IDToPosition_encode by (try assumption; lia).
    rewrite <- (MaxCombinations_representable cfg Hcfg).
    apply Z.mod_small. exact Hpos.
Qed.

(** From state 3 the counting stream draws 3, 4 and 5: the identifier is
    [fa-45], that of position 485. *)
Lemma NewID_valid_witness :
  ∃ id r' position,
    NewID counting g121 3%nat = Returns (id, r')
    ∧ 0 <= position < MaxCombinations g121
    ∧ PositionToID g121 position = Some id
    ∧ (distinctive (str "-") → IDToPosition g121 id = position).
Proof.
  apply (NewID_valid counting (config 1 2 "-") 3%nat).
  - intros r n Hn. cbn. apply Z.mod_pos_bound. exact Hn.
  - unfold representable, MaxInt64. simpl. lia.
  - vm_compute. discriminate.
Defined.

(** ** Configurations [PositionToID] cannot serve *)

Lemma wrap_multiple k : wrap (2 ^ 64 * k) = 0.
Proof.
  rewrite (wrap_congr (2 ^ 64 * k) 0); [reflexivity|].
  rewrite Z.mul_comm, Z_mod_mult. reflexivity.
Qed.

(** From 32 digits on, [12 ^ equal] is a multiple of [2 ^ 64]. *)
Lemma intPow_12_zero equal :
  32 <= equal <= MaxInt64 → intPow 12 equal = 0.
Proof.
  intros Hequal. rewrite intPow_wrap by lia.
  replace equal with (32 + (equal - 32)) by lia.
  rewrite Z.pow_add_r by lia.
  assert (Hsplit : 12 ^ 32 = 2 ^ 64 * 3 ^ 32) by (vm_compute; reflexivity).
  rewrite Hsplit, <- Z.mul_assoc. apply wrap_multiple.
Qed.

(** X5. With 32 or more equal-temperament digits, [12 ^ equal] wraps to 0
    in 64 bits: [MaxCombinations] returns 0, [PositionToID] panics on the
    division by zero for every position that is not negative, and both
    batch functions return the empty sequence for every request. *)
Theorem equalMax_wraps_to_zero {Rand : Type} (Intn : Rand → Z → Z * Rand)
    (cfg : Config.t) :
  32 <= Config.EqualTemperamentDigits cfg <= MaxInt64 →
  MaxCombinations (New cfg) = 0
  ∧ (∀ position, 0 <= position → PositionToID (New cfg) position = None)
  ∧ (∀ count startPosition,
       BatchGenerateIDs (New cfg) count startPosition = Some [])
  ∧ (∀ fuel r count,
       BatchGenerateRandomIDs Intn fuel (New cfg) r count = Returns ([], r)).
Proof.
  intros Hequal.
  assert (Hzero : intPow (equalTemperamentLen (New cfg))
                    (EqualTemperamentDigits (New cfg)) = 0)
    by (rewrite New_equalTemperamentLen; apply intPow_12_zero; exact Hequal).
  assert (Hmax : MaxCombinations (New cfg) = 0).
  { unfold MaxCombinations. rewrite Hzero. unfold mul64.
    rewrite Z.mul_0_r. reflexivity. }
  split; [exact Hmax|]. split; [|split].
  - intros position Hpos. unfold PositionToID.
    rewrite bool_decide_eq_false_2 by lia. rewrite Hzero. reflexivity.
  - intros count startPosition. apply BatchGenerateIDs_empty. lia.
  - intros fuel r count. unfold BatchGenerateRandomIDs. rewrite Hmax.
    case_bool_decide; [reflexivity|].
    rewrite bool_decide_eq_true_2 by lia. reflexivity.
Qed.

Lemma equalMax_wraps_to_zero_witness :
  MaxCombinations (New (config 1 32 "-")) = 0
  ∧ (∀ position, 0 <= position →
       PositionToID (New (config 1 32 "-")) position = None)
  ∧ (∀ count startPosition,
       BatchGenerateIDs (New (config 1 32 "-")) count startPosition = Some [])
  ∧ (∀ fuel r count,
       BatchGenerateRandomIDs counting fuel (New (config 1 32 "-")) r count
       = Returns ([], r)).
Proof.
  apply (equalMax_wraps_to_zero counting (config 1 32 "-")).
  unfold MaxInt64. simpl. lia.
Defined.

Lemma make_negative {A} (zero : A) n : n < 0 → make zero n = None.
Proof.
  intros Hn. unfold make. rewrite bool_decide_eq_true_2 by exact Hn.
  reflexivity.
Qed.

(** X6. A negative digit count makes [PositionToID] panic for every
    position that is not negative ([make] with a negative length, when not
    the capacity or the division before it), although [New] accepts the
    configuration and [MaxCombinations] counts the negative exponent as
    [intPow] does, as 0. *)
Theorem PositionToID_negative_digits (cfg : Config.t) (position : Z) :
  Config.JustIntonationDigits cfg < 0
  ∨ Config.EqualTemperamentDigits cfg < 0 →
  0 <= position →
  PositionToID (New cfg) position = None.
Proof.
  intros Hneg Hpos. unfold PositionToID.
  rewrite bool_decide_eq_false_2 by lia.
  destruct (quo64 position _) as [justValue|]; [|reflexivity].
  destruct (rem64 position _) as [equalValue|]; [|reflexivity].
  cbn [mbind option_bind].
  destruct (make_cap _) as [result|]; [|reflexivity].
  cbn [mbind option_bind New JustIntonationDigits EqualTemperamentDigits].
  destruct (decide (Config.JustIntonationDigits cfg < 0)) as [Hjust|Hjust].
  - rewrite (make_negative 0 (Config.JustIntonationDigits cfg)) by exact Hjust.
    reflexivity.
  - destruct (make 0 (Config.JustIntonationDigits cfg)) as [justDigits|];
      [|reflexivity].
    cbn [mbind option_bind].
    destruct (fill_digits _ _ justValue _) as [justDigits1|]; [|reflexivity].
    cbn [mbind option_bind].
    destruct (append_notes _ justDigits1 result) as [result1|];
      [|reflexivity].
    cbn [mbind option_bind].
    rewrite (make_negative 0 (Config.EqualTemperamentDigits cfg)) by lia.
    reflexivity.
Qed.

Lemma PositionToID_negative_digits_witness :
  PositionToID (New (config 1 (-1) "-")) 0 = None.
Proof.
  apply (PositionToID_negative_digits (config 1 (-1) "-") 0).
  - right. simpl. lia.
  - lia.
Defined.

(** ** Injectivity, whatever the separator *)

(** The two parts of an identifier determine the position: no separator
    is needed for that, the first part has a fixed width. *)
Lemma encode_inj cfg p1 p2 :
  representable cfg →
  0 <= p1 < MaxCombinations (New cfg) →
  0 <= p2 < MaxCombinations (New cfg) →
  encode cfg p1 = encode cfg p2 → p1 = p2.
Proof.
  intros Hcfg Hp1 Hp2 Henc.
  rewrite (MaxCombinations_representable cfg Hcfg) in Hp1, Hp2.
  destruct (representable_pows cfg Hcfg) as (H7 & H12 & Hj & He).
  destruct Hcfg as (_ & _ & Hmax). cbv zeta in *.
  unfold encode in Henc.
  set (just := Config.JustIntonationDigits cfg) in *.
  set (equal := Config.EqualTemperamentDigits cfg) in *.
  assert (Hparts : ∀ p, 0 <= p < 7 ^ just * 12 ^ equal →
    0 <= p / 12 ^ equal < 7 ^ just ∧ 0 <= p mod 12 ^ equal < 12 ^ equal
    ∧ p = 12 ^ equal * (p / 12 ^ equal) + p mod 12 ^ equal).
  { intros p Hp. split; [|split].
    - split; [apply Z.div_pos; lia|]. apply Z.div_lt_upper_bound; lia.
    - apply Z.mod_pos_bound. lia.
    - apply Z.div_mod. lia. }
  destruct (Hparts p1 Hp1) as (Hq1 & Hr1 & Heq1).
  destruct (Hparts p2 Hp2) as (Hq2 & Hr2 & Heq2).
  pose proof (to_digits_range (Z.to_nat just) 7 (p1 / 12 ^ equal) ltac:(lia))
    as Hjd1.
  pose proof (to_digits_range (Z.to_nat just) 7 (p2 / 12 ^ equal) ltac:(lia))
    as Hjd2.
  pose proof (to_digits_range (Z.to_nat equal) 12 (p1 mod 12 ^ equal)
                ltac:(lia)) as Hed1.
  pose proof (to_digits_range (Z.to_nat equal) 12 (p2 mod 12 ^ equal)
                ltac:(lia)) as Hed2.
  apply app_inj_1 in Henc as [Hnotes Hrest].
  2:{ rewrite !notes_length, !to_digits_length by assumption. reflexivity. }
  apply app_inv_head in Hrest.
  assert (Hvalue : ∀ n radix v, 0 < radix → 0 <= v < radix ^ n → 0 <= n →
    from_digits radix (to_digits (Z.to_nat n) radix v) 0 = v).
  { intros n radix v Hr Hv Hn. rewrite from_to_digits by exact Hr.
    rewrite Z2Nat.id by exact Hn. rewrite Z.mod_small by exact Hv. lia. }
  pose proof (Hvalue just 7 _ ltac:(lia) Hq1 ltac:(lia)) as Hv1.
  pose proof (Hvalue just 7 _ ltac:(lia) Hq2 ltac:(lia)) as Hv2.
  pose proof (Hvalue equal 12 _ ltac:(lia) Hr1 ltac:(lia)) as Hw1.
  pose proof (Hvalue equal 12 _ ltac:(lia) Hr2 ltac:(lia)) as Hw2.
  apply (f_equal (λ s, parse_just (New cfg) s 0)) in Hnotes.
  rewrite (parse_just_notes cfg _ 0 Hjd1 ltac:(lia)) in Hnotes
    by (rewrite Hv1; lia).
  rewrite (parse_just_notes cfg _ 0 Hjd2 ltac:(lia)) in Hnotes
    by (rewrite Hv2; lia).
  apply (f_equal (λ s, parse_equal (New cfg) s 0)) in Hrest.
  rewrite (parse_equal_chars cfg _ 0 Hed1 ltac:(lia)) in Hrest
    by (rewrite Hw1; lia).
  rewrite (parse_equal_chars cfg _ 0 Hed2 ltac:(lia)) in Hrest
    by (rewrite Hw2; lia).
  rewrite Hv1, Hv2 in Hnotes. rewrite Hw1, Hw2 in Hrest.
  injection Hnotes as Hq. injection Hrest as Hr. congruence.
Qed.

(** X7. For a configuration whose [7 ^ just * 12 ^ equal] and identifier
    length fit an [int64] and for every separator, the empty one and those
    made of alphabet bytes included, [PositionToID] is injective on
    [[0, MaxCombinations)]: two different positions in range never get the
    same identifier. *)
Theorem PositionToID_injective (cfg : Config.t) (p1 p2 : Z) :
  representable cfg → fits_int cfg →
  0 <= p1 < MaxCombinations (New cfg) →
  0 <= p2 < MaxCombinations (New cfg) →
  p1 ≠ p2 →
  PositionToID (New cfg) p1 ≠ PositionToID (New cfg) p2.
Proof.
  intros Hcfg Hfit Hp1 Hp2 Hne Hid. apply Hne.
  destruct (MaxCombinations_int64 (New cfg)) as [_ Hmax].
  rewrite !PositionToID_Some in Hid by (try assumption; lia).
  injection Hid as Hid. exact (encode_inj cfg p1 p2 Hcfg Hp1 Hp2 Hid).
Qed.

(** With the empty separator and two and three digits, positions 11 and
    1739 ([dodo00b] and [dore00b]) are told apart. *)
Lemma PositionToID_injective_witness :
  PositionToID (New (config 2 3 "")) 11
  ≠ PositionToID (New (config 2 3 "")) 1739.
Proof.
  apply (PositionToID_injective (config 2 3 "") 11 1739).
  - unfold representable, MaxInt64. simpl. lia.
  - vm_compute. discriminate.
  - vm_compute. split; [discriminate|reflexivity].
  - vm_compute. split; [discriminate|reflexivity].
  - discriminate.
Defined.

(** X8. For a configuration whose [7 ^ just * 12 ^ equal] and identifier
    length fit an [int64] and whose separator is distinctive, and every
    position that is not negative, in range or past it,
    [IDToPosition (PositionToID position)] is
    [position mod MaxCombinations]. *)
Theorem IDToPosition_PositionToID_modulo (cfg : Config.t) (position : Z) :
  representable cfg → fits_int cfg → distinctive (Config.Separator cfg) →
  0 <= position → int64 position →
  ∃ id, PositionToID (New cfg) position = Some id
        ∧ IDToPosition (New cfg) id
          = position mod MaxCombinations (New cfg).
Proof.
  intros Hcfg Hfit Hsep Hpos [_ Hint].
  exists (encode cfg position). split.
  - apply PositionToID_Some; [exact Hcfg|exact Hfit|lia].
  - rewrite (MaxCombinations_representable cfg Hcfg).
    apply IDToPosition_encode; [exact Hcfg|exact Hsep|lia].
Qed.

(** Position 1152 is past the 1008 identifiers: its identifier decodes to
    144. *)
Lemma IDToPosition_PositionToID_modulo_witness :
  ∃ id, PositionToID g121 1152 = Some id ∧ IDToPosition g121 id = 144.
Proof.
  apply (IDToPosition_PositionToID_modulo (config 1 2 "-") 1152).
  - unfold representable, MaxInt64. simpl. lia.
  - vm_compute. discriminate.
  - exists "-"%char. split; apply (bool_decide_unpack _); vm_compute; exact I.
  - lia.
  - unfold int64, MinInt64, MaxInt64. lia.
Defined.

(** X9. Under the conditions of the sequential batch (representable
    configuration, [count > 0], start position in range,
    [startPosition + count <= MaxInt64]) and for every separator, the
    identifiers [BatchGenerateIDs] returns are pairwise distinct. *)
Theorem BatchGenerateIDs_NoDup (cfg : Config.t) (count startPosition : Z)
    (ids : list (list ascii)) :
  representable cfg → fits_int cfg →
  0 < count → 0 <= startPosition < MaxCombinations (New cfg) →
  startPosition + count <= MaxInt64 →
  BatchGenerateIDs (New cfg) count startPosition = Some ids →
  NoDup ids.
Proof.
  intros Hcfg Hfit Hcount Hstart Hsum.
  rewrite BatchGenerateIDs_encode by assumption. intros [= <-].
  apply NoDup_fmap_2_strong; [|apply NoDup_seqZ].
  intros p1 p2 Hp1%elem_of_seqZ Hp2%elem_of_seqZ.
  apply encode_inj; [exact Hcfg|lia|lia].
Qed.

Lemma BatchGenerateIDs_NoDup_witness :
  NoDup [str "ti8"; str "ti9"; str "tia"; str "tib"].
Proof.
  apply (BatchGenerateIDs_NoDup (config 1 1 "") 10 80).
  - unfold representable, MaxInt64. simpl. lia.
  - vm_compute. discriminate.
  - lia.
  - vm_compute. split; [discriminate|reflexivity].
  - unfold MaxInt64. lia.
  - vm_compute. reflexivity.
Defined.

(** ** [randomSample] on its own *)

(** X10. For every [max] and [count] with [0 < count <= max], every state
    of the random stream and every bound on the draws: what [randomSample]
    returns, whenever it returns, is [count] pairwise distinct numbers in
    [[0, max)], all of them when [count = max]; and it returns when
    [count = max], or when the stream yields [count] distinct numbers
    within finitely many draws. *)
Theorem randomSample_distinct {Rand : Type} (Intn : Rand → Z → Z * Rand)
    (r : Rand) (max count : Z) :
  (∀ r n, 0 < n → 0 <= (Intn r n).1 < n) →
  0 < count <= max →
  (∀ fuel sample r',
     randomSample Intn fuel r max count = Returns (sample, r') →
     len sample = count ∧ NoDup sample ∧ (∀ p, p ∈ sample → 0 <= p < max)
     ∧ (count = max → ∀ p, 0 <= p < max → p ∈ sample))
  ∧ (count = max ∨ yields_distinct Intn r max count →
     ∃ fuel sample r',
       randomSample Intn fuel r max count = Returns (sample, r')).
Proof.
  intros Hrange Hcount. split.
  - intros fuel sample r'.
    apply (randomSample_partial Intn Hrange). exact Hcount.
  - apply (randomSample_returns Intn Hrange). exact Hcount.
Qed.

(** From state 7 the counting stream gives the sample 7, 8, 9, 0, 1 out
    of 10. *)
Lemma randomSample_distinct_witness :
  ∃ fuel sample r',
    randomSample counting fuel 7%nat 10 5 = Returns (sample, r')
    ∧ len sample = 5 ∧ NoDup sample ∧ (∀ p, p ∈ sample → 0 <= p < 10).
Proof.
  destruct (randomSample_distinct counting 7%nat 10 5) as [Hsafe Hlive].
  - intros r n Hn. cbn. apply Z.mod_pos_bound. exact Hn.
  - lia.
  - destruct Hlive as (fuel & sample & r' & Hsample).
    + right. exists 5%nat. vm_compute. discriminate.
    + exists fuel, sample, r'. split; [exact Hsample|].
      destruct (Hsafe fuel sample r' Hsample) as (Hlen & Hnd & Hin & _).
      split; [exact Hlen|]. split; [exact Hnd|exact Hin].
Defined.

(** X11. [randomSample] outside [0 < count <= max]. When [count] exceeds
    [max] the shuffled slice is cut at [count], past its end, and the call
    panics (as it does for a negative [max]); a negative [count] below
    [max] panics on the capacity of the slice; [count = 0] below [max]
    returns the empty sample without a draw. *)
Theorem randomSample_outside {Rand : Type} (Intn : Rand → Z → Z * Rand)
    (fuel : nat) (r : Rand) (max count : Z) :
  (∀ r n, 0 < n → 0 <= (Intn r n).1 < n) →
  (max <= count → max < count ∨ max < 0 →
   randomSample Intn fuel r max count = Panics)
  ∧ (count < max → count < 0 →
     randomSample Intn fuel r max count = Panics)
  ∧ (count < max → count = 0 →
     randomSample Intn fuel r max count = Returns ([], r)).
Proof.
  intros Hrange. unfold randomSample. split; [|split].
  - intros Hge Hout. rewrite bool_decide_eq_true_2 by lia.
    destruct (decide (max < 0)) as [Hneg|Hpos].
    { rewrite make_negative by exact Hneg. reflexivity. }
    rewrite make_nonneg by lia. outcome_step.
    rewrite fill_identity_fresh by lia. outcome_step.
    assert (Hshuffle : ∃ positions r',
      shuffle Intn (Z.to_nat (max - 1)) (seqZ 0 max) r
      = Returns (positions, r') ∧ positions ≡ₚ seqZ 0 max).
    { destruct (decide (max = 0)) as [->|Hne].
      - exists (seqZ 0 0), r. split; reflexivity.
      - apply (shuffle_permutation Intn Hrange).
        rewrite length_seqZ. lia. }
    destruct Hshuffle as (positions & r' & -> & Hperm). outcome_step.
    assert (Hlen : length positions = Z.to_nat max)
      by (rewrite Hperm; apply length_seqZ).
    unfold slice_to, len. rewrite bool_decide_eq_false_2 by lia.
    reflexivity.
  - intros Hlt Hneg. rewrite bool_decide_eq_false_2 by lia.
    unfold make_cap. rewrite bool_decide_eq_true_2 by exact Hneg.
    reflexivity.
  - intros Hlt ->. rewrite bool_decide_eq_false_2 by lia.
    rewrite make_cap_nonneg by lia. outcome_step.
    destruct fuel; reflexivity.
Qed.

(** A sample of 7 out of 5 panics. *)
Lemma randomSample_outside_witness :
  randomSample counting 0 3%nat 5 7 = Panics.
Proof.
  refine (proj1 (randomSample_outside counting 0 3%nat 5 7 _) _ _).
  - intros r n Hn. cbn. apply Z.mod_pos_bound. exact Hn.
  - lia.
  - left. lia.
Defined.

(** ** Identifiers [IDToPosition] accepts *)

Lemma Index_Some s : ∀ sep m,
  Index s sep = Some m →
  s = take m s ++ sep ++ drop (m + length sep) s.
Proof.
  induction s as [|a s IH]; intros sep m Hm.
  - cbn [Index] in Hm. destruct (HasPrefix [] sep) eqn:Hp; [|discriminate].
    injection Hm as <-. apply HasPrefix_inv in Hp as [t Ht].
    destruct sep; [reflexivity|discriminate].
  - cbn [Index] in Hm. destruct (HasPrefix (a :: s) sep) eqn:Hp.
    + injection Hm as <-. apply HasPrefix_inv in Hp as [t Ht].
      cbn [take app Nat.add]. rewrite Ht at 2.
      rewrite drop_app_length. exact Ht.
    + destruct (Index s sep) as [m'|] eqn:Hs; [|discriminate].
      injection Hm as <-. cbn [take Nat.add drop app]. f_equal.
      apply IH. exact Hs.
Qed.

Lemma genSplit_not_nil fuel s sep : genSplit fuel s sep ≠ [].
Proof.
  destruct fuel; cbn [genSplit]; [discriminate|].
  destruct (Index s sep); discriminate.
Qed.

Lemma genSplit_one fuel s sep b : genSplit fuel s sep = [b] → b = s.
Proof.
  destruct fuel; cbn [genSplit]; [congruence|].
  destruct (Index s sep); [|congruence].
  intros [= _ Hrest]. destruct (genSplit_not_nil _ _ _ Hrest).
Qed.

(** Two segments are the identifier without one instance of the
    separator. *)
Lemma genSplit_two fuel s sep a b :
  genSplit fuel s sep = [a; b] → s = a ++ sep ++ b.
Proof.
  destruct fuel; cbn [genSplit]; [discriminate|].
  destruct (Index s sep) as [m|] eqn:Hm; [|discriminate].
  intros [= <- Hrest]. apply genSplit_one in Hrest as ->.
  apply Index_Some. exact Hm.
Qed.

(** A successful parse of [2 * n] bytes has read the names of [n]
    digits. *)
Lemma parse_just_digits cfg n : ∀ justPart acc v,
  length justPart = (2 * n)%nat → 0 <= acc →
  (acc + 1) * 7 ^ Z.of_nat n <= MaxInt64 + 1 →
  parse_just (New cfg) justPart acc = Some v →
  ∃ digits,
    length digits = n ∧ Forall (λ d, 0 <= d < 7) digits
    ∧ justPart = concat (note <$> digits)
    ∧ v = from_digits 7 digits acc.
Proof.
  induction n as [|n IH]; intros justPart acc v Hlen Hacc Hmax Hv.
  - destruct justPart; [|discriminate]. simplify_eq/=.
    exists []. repeat split. constructor.
  - destruct justPart as [|a [|b rest]]; try discriminate.
    cbn [parse_just] in Hv.
    destruct (justIntonationMap (New cfg) !! [a; b]) as [index|] eqn:Hmap;
      [|discriminate].
    apply justIntonationMap_entry in Hmap as [Hindex Hnote].
    rewrite New_justIntonationLen in Hv.
    rewrite Nat2Z.inj_succ, Z.pow_succ_r in Hmax by lia.
    assert (Hpow : 0 < 7 ^ Z.of_nat n) by (apply Z.pow_pos_nonneg; lia).
    rewrite horner_step in Hv by nia.
    apply IH in Hv as (digits & Hdl & Hd & -> & ->);
      [|simpl in Hlen; lia|lia|nia].
    exists (index :: digits). cbn [length fmap list_fmap concat from_digits].
    rewrite <- Hnote. repeat split; [congruence|].
    constructor; assumption.
Qed.

Lemma parse_equal_digits cfg n : ∀ equalPart acc v,
  length equalPart = n → 0 <= acc →
  (acc + 1) * 12 ^ Z.of_nat n <= MaxInt64 + 1 →
  parse_equal (New cfg) equalPart acc = Some v →
  ∃ digits,
    length digits = n ∧ Forall (λ d, 0 <= d < 12) digits
    ∧ equalPart = char <$> digits
    ∧ v = from_digits 12 digits acc.
Proof.
  induction n as [|n IH]; intros equalPart acc v Hlen Hacc Hmax Hv.
  - destruct equalPart; [|discriminate]. simplify_eq/=.
    exists []. repeat split. constructor.
  - destruct equalPart as [|c rest]; try discriminate.
    cbn [parse_equal] in Hv.
    destruct (equalTemperamentMap (New cfg) !! c) as [index|] eqn:Hmap;
      [|discriminate].
    apply equalTemperamentMap_entry in Hmap as [Hindex Hchar].
    rewrite New_equalTemperamentLen in Hv.
    rewrite Nat2Z.inj_succ, Z.pow_succ_r in Hmax by lia.
    assert (Hpow : 0 < 12 ^ Z.of_nat n) by (apply Z.pow_pos_nonneg; lia).
    rewrite horner_step in Hv by nia.
    apply IH in Hv as (digits & Hdl & Hd & -> & ->);
      [|simpl in Hlen; lia|lia|nia].
    exists (index :: digits). cbn [length fmap list_fmap from_digits].
    rewrite <- Hchar. repeat split; [congruence|].
    constructor; assumption.
Qed.

(** A UTF-8 sequence has at least one byte, and exactly one when its first
    byte is below 194 (ASCII, or not the start of a sequence). *)
Lemma runeSize_pos s0 t : (1 <= runeSize (s0 :: t))%nat.
Proof.
  unfold runeSize.
  repeat (case_bool_decide; [try lia|]);
    repeat case_match; lia.
Qed.

Lemma runeSize_low s0 t : byteval s0 < 194 → runeSize (s0 :: t) = 1%nat.
Proof.
  intros Hlow. unfold runeSize.
  rewrite bool_decide_eq_true_2 by exact Hlow. reflexivity.
Qed.

(** The note names start with an ASCII letter. *)
Lemma note_head_low v a b : 0 <= v < 7 → note v = [a; b] → byteval a < 194.
Proof.
  intros Hv.
  assert (v = 0 ∨ v = 1 ∨ v = 2 ∨ v = 3 ∨ v = 4 ∨ v = 5 ∨ v = 6)
    as [->|[->|[->|[->|[->|[->| ->]]]]]] by lia;
    intros [= <- _]; vm_compute; reflexivity.
Qed.

(** The first segment of a split on the empty separator is one UTF-8
    sequence, which no run of note names is. *)
Lemma parse_just_explode cfg s justPart rest :
  explode (length s) s = justPart :: rest →
  parse_just (New cfg) justPart 0 = None.
Proof.
  destruct s as [|s0 t]; [discriminate|].
  change (explode (length (s0 :: t)) (s0 :: t))
    with (take (runeSize (s0 :: t)) (s0 :: t)
          :: explode (length t) (drop (runeSize (s0 :: t)) (s0 :: t))).
  pose proof (runeSize_pos s0 t) as Hsize.
  pose proof (runeSize_low s0 t) as Hone.
  generalize dependent (runeSize (s0 :: t)). intros size Hsize Hone Hcons.
  injection Hcons as <- _.
  destruct (decide (byteval s0 < 194)) as [Hlow|Hhigh].
  - rewrite (Hone Hlow). reflexivity.
  - destruct size as [|[|size]]; [lia|reflexivity|].
    destruct t as [|s1 t]; [reflexivity|].
    cbn [take parse_just].
    destruct (justIntonationMap (New cfg) !! [s0; s1]) as [v|] eqn:Hmap;
      [|reflexivity].
    apply justIntonationMap_entry in Hmap as [Hv Hnote].
    symmetry in Hnote. apply note_head_low in Hnote; [lia|exact Hv].
Qed.

Lemma IDToPosition_no_separator cfg id :
  Config.Separator cfg = [] → IDToPosition (New cfg) id = -1.
Proof.
  intros Hsep.
  destruct (decide (IDToPosition (New cfg) id = -1)) as [|Hok];
    [assumption|exfalso].
  destruct (IDToPosition_parts cfg id Hok)
    as (justPart & equalPart & justValue & equalValue
        & Hsplit & _ & _ & Hjust & _).
  rewrite Hsep in Hsplit. cbn [Split] in Hsplit.
  rewrite (parse_just_explode cfg id justPart [equalPart] Hsplit) in Hjust.
  discriminate.
Qed.

(** What [IDToPosition] accepts is what [PositionToID] renders. *)
Lemma PositionToID_of_accepted cfg id :
  representable cfg → fits_int cfg →
  IDToPosition (New cfg) id ≠ -1 →
  0 <= IDToPosition (New cfg) id < MaxCombinations (New cfg)
  ∧ PositionToID (New cfg) (IDToPosition (New cfg) id) = Some id.
Proof.
  intros Hcfg Hfit Hok.
  destruct (decide (Config.Separator cfg = [])) as [Hnil|Hsep].
  { destruct (Hok (IDToPosition_no_separator cfg id Hnil)). }
  destruct (IDToPosition_parts cfg id Hok)
    as (justPart & equalPart & justValue & equalValue
        & Hsplit & Hlj & Hle & Hjust & Hequal & Hvalue).
  rewrite Hvalue, (equalMax_exact cfg Hcfg).
  destruct (representable_pows cfg Hcfg) as (H7 & H12 & Hj & He).
  pose proof (double_lt_pow7 _ (proj1 Hj)) as H2j.
  cbv zeta in *.
  assert (Hmin : MinInt64 <= 0) by (unfold MinInt64; lia).
  unfold mul64 in Hlj. rewrite wrap_small in Hlj by lia. unfold len in *.
  apply (parse_just_digits cfg (Z.to_nat (Config.JustIntonationDigits cfg)))
    in Hjust as (justDigits & Hjl & Hjd & -> & ->);
    [|lia|lia|rewrite Z2Nat.id by lia; lia].
  apply (parse_equal_digits cfg
           (Z.to_nat (Config.EqualTemperamentDigits cfg)))
    in Hequal as (equalDigits & Hel & Hed & -> & ->);
    [|lia|lia|rewrite Z2Nat.id by lia; lia].
  destruct (encode_of_digits cfg justDigits equalDigits Hcfg Hjl Hel Hjd Hed)
    as [Hpos Henc].
  destruct (MaxCombinations_int64 (New cfg)) as [_ Hmax].
  rewrite horner_step.
  - split; [exact Hpos|].
    rewrite PositionToID_Some by (try assumption; lia).
    rewrite Henc. f_equal. symmetry.
    rewrite Split_genSplit in Hsplit by exact Hsep.
    exact (genSplit_two _ _ _ _ _ Hsplit).
  - apply (from_digits_mono 7 justDigits 0); [lia|lia|exact Hjd].
  - lia.
  - apply (from_digits_mono 12 equalDigits 0); [lia|lia|exact Hed].
  - lia.
Qed.

(** X12. For a configuration whose [7 ^ just * 12 ^ equal] and identifier
    length fit an [int64] and every separator: an identifier that
    [IDToPosition] does not reject decodes to a position in
    [[0, MaxCombinations)], and [PositionToID] of that position is the
    identifier itself; so [IDToPosition] accepts exactly the identifiers
    [PositionToID] produces for the positions in range. *)
Theorem PositionToID_IDToPosition (cfg : Config.t) (id : list ascii) :
  representable cfg → fits_int cfg →
  IDToPosition (New cfg) id ≠ -1 →
  0 <= IDToPosition (New cfg) id < MaxCombinations (New cfg)
  ∧ PositionToID (New cfg) (IDToPosition (New cfg) id) = Some id.
Proof. exact (PositionToID_of_accepted cfg id). Qed.

Lemma PositionToID_IDToPosition_witness :
  0 <= IDToPosition g121 (str "ti-bb") < MaxCombinations g121
  ∧ PositionToID g121 (IDToPosition g121 (str "ti-bb")) = Some (str "ti-bb").
Proof.
  apply (PositionToID_IDToPosition (config 1 2 "-") (str "ti-bb")).
  - unfold representable, MaxInt64. simpl. lia.
  - vm_compute. discriminate.
  - vm_compute. discriminate.
Defined.

(** X13. With the empty separator [IDToPosition] returns [-1] for every
    string and every digit counts: [strings.Split] cuts at every UTF-8
    sequence, and one sequence is never a run of note names. *)
Theorem IDToPosition_empty_separator (cfg : Config.t) (id : list ascii) :
  Config.Separator cfg = [] → IDToPosition (New cfg) id = -1.
Proof. exact (IDToPosition_no_separator cfg id). Qed.

Lemma IDToPosition_empty_separator_witness :
  IDToPosition (New (config 1 1 "")) (str "do5") = -1.
Proof.
  apply (IDToPosition_empty_separator (config 1 1 "") (str "do5")).
  reflexivity.
Defined.

(** ** [NewID] on any configuration *)



(** ** Random batches with the empty separator *)

(** C3 fails on the code, by the defect of C1. With one digit in each
    part and the empty separator there are 84 identifiers. For every state
    of the random stream [BatchGenerateRandomIDs 84] returns (the request
    is for all of them, so the sample is the shuffle, which draws 83 times
    and stops), and it returns 84 identifiers that are pairwise distinct;
    but [IDToPosition] gives [-1] for every one of them, so they do not
    decode to 84 distinct positions in range: the batch is no unique
    batch. *)
Theorem BatchGenerateRandomIDs_empty_separator {Rand : Type}
    (Intn : Rand → Z → Z * Rand) (fuel : nat) (r : Rand) :
  (∀ r n, 0 < n → 0 <= (Intn r n).1 < n) →
  MaxCombinations (New (config 1 1 "")) = 84
  ∧ ∃ ids r',
      BatchGenerateRandomIDs Intn fuel (New (config 1 1 "")) r 84
      = Returns (ids, r')
      ∧ len ids = 84
      ∧ NoDup ids
      ∧ (∀ id, id ∈ ids → IDToPosition (New (config 1 1 "")) id = -1)
      ∧ ¬ unique_batch (New (config 1 1 "")) 84 ids.
Proof.
  intros Hrange.
  assert (Hmax : MaxCombinations (New (config 1 1 "")) = 84)
    by (vm_compute; reflexivity).
  assert (Hcfg : representable (config 1 1 ""))
    by (unfold representable, MaxInt64; simpl; lia).
  assert (Hfit : fits_int (config 1 1 "")) by (vm_compute; discriminate).
  split; [exact Hmax|].
  destruct (randomSample_all Intn Hrange fuel r 84 ltac:(lia))
    as (positions & r' & Hsample & Hperm).
  exists (encode (config 1 1 "") <$> positions), r'.
  assert (Hdecode : ∀ id : list ascii,
            IDToPosition (New (config 1 1 "")) id = -1)
    by (intros id; apply IDToPosition_no_separator; reflexivity).
  assert (Hlen : length positions = 84%nat)
    by (rewrite Hperm; apply length_seqZ).
  split; [|split; [|split; [|split]]].
  - rewrite (BatchGenerateRandomIDs_sample Intn Hrange _ Hcfg Hfit)
      by (rewrite Hmax; lia).
    rewrite Hmax, Hsample. reflexivity.
  - unfold len. rewrite length_fmap, Hlen. reflexivity.
  - apply NoDup_fmap_2_strong; [|rewrite Hperm; apply NoDup_seqZ].
    intros p1 p2 Hp1 Hp2. rewrite Hperm in Hp1, Hp2.
    apply elem_of_seqZ in Hp1, Hp2.
    apply (encode_inj _ p1 p2 Hcfg); rewrite Hmax; lia.
  - intros id _. apply Hdecode.
  - intros (_ & _ & _ & Hin & _).
    destruct positions as [|p positions]; [discriminate|].
    specialize (Hin (encode (config 1 1 "") p) ltac:(left)).
    rewrite Hdecode in Hin. lia.
Qed.

(** The counting stream from state 0, for one. *)
Lemma BatchGenerateRandomIDs_empty_separator_witness :
  ∃ ids r',
    BatchGenerateRandomIDs counting 0 (New (config 1 1 "")) 0%nat 84
    = Returns (ids, r')
    ∧ len ids = 84
    ∧ (∀ id, id ∈ ids → IDToPosition (New (config 1 1 "")) id = -1).
Proof.
  destruct (BatchGenerateRandomIDs_empty_separator counting 0 0%nat)
    as (_ & ids & r' & Hids & Hlen & _ & Hdecode & _).
  - intros r n Hn. cbn. apply Z.mod_pos_bound. exact Hn.
  - exists ids, r'. exact (conj Hids (conj Hlen Hdecode)).
Defined.

(** ** The round trip, whatever the separator *)

(** X15. For a configuration whose [7 ^ just * 12 ^ equal] and identifier
    length fit an [int64], every separator and every position in
    [[0, MaxCombinations)]: [PositionToID] returns an identifier, and
    [IDToPosition] of it is the position or [-1], never another position;
    it is the position when the separator is distinctive. *)
Theorem IDToPosition_PositionToID_or_rejected
    (cfg : Config.t) (position : Z) :
  representable cfg → fits_int cfg →
  0 <= position < MaxCombinations (New cfg) →
  ∃ id, PositionToID (New cfg) position = Some id
        ∧ (IDToPosition (New cfg) id = position
           ∨ IDToPosition (New cfg) id = -1)
        ∧ (distinctive (Config.Separator cfg) →
           IDToPosition (New cfg) id = position).
Proof.
  intros Hcfg Hfit Hpos.
  destruct (MaxCombinations_int64 (New cfg)) as [_ Hmax].
  exists (encode cfg position).
  split; [apply PositionToID_Some; [exact Hcfg|exact Hfit|lia]|]. split.
  - destruct (decide (IDToPosition (New cfg) (encode cfg position) = -1))
      as [Hrej|Hok]; [right; exact Hrej|left].
    destruct (PositionToID_of_accepted cfg _ Hcfg Hfit Hok) as [Hin Hid].
    rewrite PositionToID_Some in Hid by (try assumption; lia).
    injection Hid as Hid.
    exact (encode_inj cfg _ position Hcfg Hin Hpos Hid).
  - intros Hsep. rewrite IDToPosition_encode by (try assumption; lia).
    rewrite <- (MaxCombinations_representable cfg Hcfg).
    apply Z.mod_small. exact Hpos.
Qed.

(** With the separator [0], a character of the second alphabet, position 0
    gets [do00], which splits into three parts. *)
Lemma IDToPosition_PositionToID_or_rejected_witness :
  ∃ id, PositionToID (New (config 1 1 "0")) 0 = Some id
        ∧ (IDToPosition (New (config 1 1 "0")) id = 0
           ∨ IDToPosition (New (config 1 1 "0")) id = -1)
        ∧ (distinctive (str "0") → IDToPosition (New (config 1 1 "0")) id = 0).
Proof.
  apply (IDToPosition_PositionToID_or_rejected (config 1 1 "0") 0).
  - unfold representable, MaxInt64. simpl. lia.
  - vm_compute. discriminate.
  - vm_compute. split; [discriminate|reflexivity].
Defined.

(** Both cases occur with the separator [0]: position 5 is [do05] and
    decodes to 5, position 0 is [do00] and is rejected. *)
Lemma separator_of_alphabet_bytes :
  PositionToID (New (config 1 1 "0")) 5 = Some (str "do05")
  ∧ IDToPosition (New (config 1 1 "0")) (str "do05") = 5
  ∧ PositionToID (New (config 1 1 "0")) 0 = Some (str "do00")
  ∧ IDToPosition (New (config 1 1 "0")) (str "do00") = -1.
Proof. repeat split; vm_compute; reflexivity. Qed.
